(** * CppVault: the password-protected vault, embedded and verified

    The development follows the three translation units of the program:
    - [Crypto.cpp]  : [Crypto::encrypt] and [Crypto::decrypt] (module [Crypto]);
    - [Vault.cpp]   : [PasswordEntry], its JSON conversions and the [Vault]
                      class (modules [Json] and [Vault]);
    - [main.cpp]    : [GeneratePassword] and the two event handlers of the user
                      interface that call into the vault (module [Ui]).

    libsodium and nlohmann/json are libraries the program links against.  They
    are interfaces here ([Sodium], [JsonLib]) and the few facts the proofs need
    about them are the classes [SodiumSpec] and the explicit premises of the
    theorems; module [Toy] gives small executable instances. *)

From Stdlib Require Import ZArith NArith Lia List.
From Stdlib Require Import Strings.Ascii Strings.String Strings.Byte.
From Stdlib Require Import DecimalString Sorting.Sorted.
From stdpp Require Import base option list gmap strings.

Set Warnings "-register-all".
Local Open Scope Z_scope.

(** ** Machine integers and C++ containers *)

(** [size_t] on the 64-bit targets the program is built for: subtraction wraps. *)
Definition size_t_modulus : Z := 2 ^ 64.
Definition size_t_sub (a b : Z) : Z := (a - b) mod size_t_modulus.

(** [std::vector<unsigned char>::max_size()] and [std::string::max_size()]:
    the constructor and [reserve] raise [std::length_error] above them. *)
Definition vector_max_size : Z := 2 ^ 63 - 1.
Definition string_max_size : Z := 2 ^ 62 - 1.

(** [size()] of a vector or a string as a [size_t]. *)
Definition size {A} (v : list A) : Z := Z.of_nat (length v).

(** The exceptions that occur in the program. *)
Inductive exn : Type :=
| runtime_error (what : string)
| length_error
| json_exception.

(** What a call does: return a value or raise. *)
Inductive Outcome (A : Type) : Type :=
| Returned (a : A)
| Threw (e : exn).
Arguments Returned {A} a.
Arguments Threw {A} e.

(** An out-buffer of fixed size handed to a C function that writes [m] from
    its start: the bytes after [m] keep their value, the size does not change. *)
Definition fill (buf m : list byte) : list byte :=
  take (length buf) (m ++ drop (length m) buf).

(** ** The environment of the process *)

(** The operating-system side of a run: the stream the secure random generator
    reads from and how far it has been consumed, the memory the process can
    still obtain, the files, and the paths that cannot be opened for writing.
    [kdf_calls] is a ghost log of the key derivations performed so far. *)
Record World : Type := mkWorld {
  entropy : nat -> byte;
  cursor : nat;
  free_memory : N;
  kdf_calls : list (string * list byte);
  files : gmap string (list byte);
  unwritable : gset string
}.

Definition set_cursor (c : nat) (w : World) : World :=
  mkWorld (entropy w) c (free_memory w) (kdf_calls w) (files w) (unwritable w).
Definition log_kdf (pw : string) (salt : list byte) (w : World) : World :=
  mkWorld (entropy w) (cursor w) (free_memory w) ((pw, salt) :: kdf_calls w)
          (files w) (unwritable w).
Definition set_files (f : gmap string (list byte)) (w : World) : World :=
  mkWorld (entropy w) (cursor w) (free_memory w) (kdf_calls w) f (unwritable w).

(** Computations that read and change the world and may raise. *)
Definition M (A : Type) : Type := World -> Outcome A * World.

Definition ret {A} (a : A) : M A := fun w => (Returned a, w).
Definition throw {A} (e : exn) : M A := fun w => (Threw e, w).
Definition bind {A B} (m : M A) (k : A -> M B) : M B :=
  fun w => match m w with
           | (Returned a, w') => k a w'
           | (Threw e, w') => (Threw e, w')
           end.

Declare Scope vault_scope.
Delimit Scope vault_scope with vault.
Notation "'let*' x ':=' m 'in' k" := (bind m (fun x => k))
  (at level 10, x pattern, m at level 100, k at level 200) : vault_scope.
Local Open Scope vault_scope.

(** ** libsodium *)

(** Modelled from the spec: the constants of libsodium's headers, which are not
    part of the repository (section 6: SALT_LEN = 16, NONCE_LEN = 24,
    TAG_LEN = 16; the key of the secret box has 32 bytes). *)
Definition crypto_pwhash_SALTBYTES : Z := 16.
Definition crypto_secretbox_NONCEBYTES : Z := 24.
Definition crypto_secretbox_MACBYTES : Z := 16.
Definition crypto_secretbox_KEYBYTES : Z := 32.
(** 64 MiB, the memory Argon2id asks for at the interactive setting. *)
Definition crypto_pwhash_MEMLIMIT_INTERACTIVE : N := 67108864.

(** The primitives of libsodium the program calls.  [argon2id] is the key
    derivation at the fixed interactive cost; the secret box takes message (or
    ciphertext), nonce and key in the order of the C functions. *)
Class Sodium : Type := {
  argon2id : string -> list byte -> list byte;
  crypto_secretbox_easy : list byte -> list byte -> list byte -> list byte;
  crypto_secretbox_open_easy :
    list byte -> list byte -> list byte -> option (list byte);
  randombytes_uniform : N -> M N
}.

(** The documented contract of those primitives. *)
Class SodiumSpec (S : Sodium) : Prop := {
  secretbox_easy_length : forall m n k,
    size (crypto_secretbox_easy m n k) = size m + crypto_secretbox_MACBYTES;
  secretbox_open_easy_inverse : forall m n k,
    crypto_secretbox_open_easy (crypto_secretbox_easy m n k) n k = Some m;
  randombytes_uniform_bound : forall upper w,
    (0 < upper)%N -> exists r w',
      randombytes_uniform upper w = (Returned r, w') /\ (r < upper)%N
}.

(** [randombytes_buf(buf, n)]: the next [n] bytes of the random stream. *)
Definition randombytes_buf (n : Z) : M (list byte) :=
  fun w => (Returned (map (entropy w) (seq (cursor w) (Z.to_nat n))),
            set_cursor (cursor w + Z.to_nat n)%nat w).

(** [crypto_pwhash] at the interactive limits.  It reads SALTBYTES bytes at
    [salt] and fails (result [None], the C function's -1) exactly when the
    memory it needs cannot be obtained. *)
Definition crypto_pwhash `{Sodium} (password : string) (salt : list byte)
  : M (option (list byte)) :=
  fun w =>
    let salt := take (Z.to_nat crypto_pwhash_SALTBYTES) salt in
    let w' := log_kdf password salt w in
    if (crypto_pwhash_MEMLIMIT_INTERACTIVE <=? free_memory w)%N
    then (Returned (Some (argon2id password salt)), w')
    else (Returned None, w').

(** [std::vector<unsigned char> v(n)]. *)
Definition new_vector (n : Z) : M (list byte) :=
  if vector_max_size <? n then throw length_error
  else ret (repeat x00 (Z.to_nat n)).

Module Crypto.

(** [Crypto::encrypt], Crypto.cpp lines 19-61. *)
Definition encrypt `{Sodium} (data password : string) : M (list byte) :=
  let* salt := randombytes_buf crypto_pwhash_SALTBYTES in
  let* key := crypto_pwhash password salt in
  match key with
  | None =>
      throw (runtime_error "Failed to derive encryption key (out of memory?)")
  | Some key =>
      let* nonce := randombytes_buf crypto_secretbox_NONCEBYTES in
      let* ciphertext :=
        new_vector (size (list_byte_of_string data) + crypto_secretbox_MACBYTES) in
      let ciphertext :=
        fill ciphertext
             (crypto_secretbox_easy (list_byte_of_string data) nonce key) in
      ret (salt ++ nonce ++ ciphertext)
  end.

(** [Crypto::decrypt], Crypto.cpp lines 63-108. *)
Definition decrypt `{Sodium} (encrypted_data : list byte) (password : string)
  : M (option string) :=
  if size encrypted_data <? crypto_pwhash_SALTBYTES + crypto_secretbox_NONCEBYTES
  then ret None
  else
    let salt := encrypted_data in
    let nonce := drop (Z.to_nat crypto_pwhash_SALTBYTES) encrypted_data in
    let ciphertext :=
      drop (Z.to_nat (crypto_pwhash_SALTBYTES + crypto_secretbox_NONCEBYTES))
           encrypted_data in
    let ciphertext_len :=
      size_t_sub (size_t_sub (size encrypted_data) crypto_pwhash_SALTBYTES)
                 crypto_secretbox_NONCEBYTES in
    let* key := crypto_pwhash password salt in
    match key with
    | None => ret None
    | Some key =>
        let* decrypted_data :=
          new_vector (size_t_sub ciphertext_len crypto_secretbox_MACBYTES) in
        match crypto_secretbox_open_easy
                (take (Z.to_nat ciphertext_len) ciphertext)
                (take (Z.to_nat crypto_secretbox_NONCEBYTES) nonce) key with
        | None => ret None
        | Some m =>
            ret (Some (string_of_list_byte (fill decrypted_data m)))
        end
    end.

(** The salt and the nonce a call of [encrypt] started in [w] reads off the
    random stream: the next 16 bytes, and the 24 after them. *)
Definition salt_drawn (w : World) : list byte :=
  map (entropy w) (seq (cursor w) 16).
Definition nonce_drawn (w : World) : list byte :=
  map (entropy w) (seq (cursor w + 16) 24).

(** The three regions of an envelope, as [decrypt] takes them apart. *)
Definition salt_of (envelope : list byte) : list byte := take 16 envelope.
Definition nonce_of (envelope : list byte) : list byte :=
  take 24 (drop 16 envelope).
Definition sealed_of (envelope : list byte) : list byte := drop 40 envelope.

(** The envelope [encrypt] is to return for [data] when started in [w]. *)
Definition envelope_of `{Sodium} (data password : string) (w : World)
  : list byte :=
  salt_drawn w ++ nonce_drawn w ++
  crypto_secretbox_easy (list_byte_of_string data) (nonce_drawn w)
    (argon2id password (salt_drawn w)).

(** The world [encrypt] leaves behind when it returns. *)
Definition after_encrypt (password : string) (w : World) : World :=
  set_cursor (cursor w + 16 + 24)%nat (log_kdf password (salt_drawn w) w).

End Crypto.

(** A [std::string] that exists: its size is within [max_size()]. *)
Definition representable (s : string) : Prop :=
  size (list_byte_of_string s) <= string_max_size.

(** ** nlohmann/json *)

Module Json.

(** The values of [nlohmann::json] the program can meet (floating-point
    numbers are left out).  An object is the list of its members; the keys of
    the objects built here are distinct, as the keys of every object of the
    library are (it keeps them in a [std::map]), and what is proved about
    reading an object is proved for such lists. *)
Inductive json : Type :=
| JNull
| JBoolean (b : bool)
| JUnsigned (n : N)
| JInteger (z : Z)
| JString (s : string)
| JArray (elems : list json)
| JObject (members : list (string * json)).

(** [dump(indent)] and [json::parse].  [None] stands for the exception of the
    library ([type_error] of [dump] on text that is not UTF-8, [parse_error]). *)
Class JsonLib : Type := {
  dump : json -> nat -> option string;
  parse : string -> option json
}.

(** [j.at(key)]: [None] is [type_error] (not an object) or [out_of_range]. *)
Fixpoint lookup_member (key : string) (members : list (string * json))
  : option json :=
  match members with
  | [] => None
  | (k, v) :: rest => if String.eqb k key then Some v else lookup_member key rest
  end.

Definition at_ (j : json) (key : string) : option json :=
  match j with
  | JObject members => lookup_member key members
  | _ => None
  end.

(** [get_to] into a [uint64_t]: both integer kinds convert, with the cast of
    C++ (so would a floating-point number, which [json] leaves out); any
    other kind is [type_error]. *)
Definition get_uint64 (j : json) : option N :=
  match j with
  | JUnsigned n => Some n
  | JInteger z => Some (Z.to_N (z mod 2 ^ 64))
  | _ => None
  end.

(** [get_to] into a [std::string]. *)
Definition get_string (j : json) : option string :=
  match j with
  | JString s => Some s
  | _ => None
  end.

End Json.
Import Json.

(** ** Vault.h / Vault.cpp *)

(** [struct PasswordEntry]; [id] is a [uint64_t]. *)
Record PasswordEntry : Type := mkEntry {
  id : N;
  title : string;
  username : string;
  password : string;
  url : string;
  notes : string
}.

(** [to_json(json&, const PasswordEntry&)]. *)
Definition to_json (p : PasswordEntry) : json :=
  JObject [ ("id", JUnsigned (id p));
            ("title", JString (title p));
            ("username", JString (username p));
            ("password", JString (password p));
            ("url", JString (url p));
            ("notes", JString (notes p)) ].

(** [from_json(const json&, PasswordEntry&)]: the first failing [at] or
    [get_to] raises, which is [None]. *)
Definition from_json (j : json) : option PasswordEntry :=
  i ← at_ j "id" ≫= get_uint64;
  t ← at_ j "title" ≫= get_string;
  u ← at_ j "username" ≫= get_string;
  p ← at_ j "password" ≫= get_string;
  l ← at_ j "url" ≫= get_string;
  n ← at_ j "notes" ≫= get_string;
  Some (mkEntry i t u p l n).

(** [json j = m_entries]: a vector converts to the array of its elements. *)
Definition entries_to_json (entries : list PasswordEntry) : json :=
  JArray (map to_json entries).

(** [j.get<std::vector<PasswordEntry>>()]: a fresh vector is built element by
    element; a value that is not an array, or an element that does not
    convert, raises before anything is returned. *)
Definition entries_from_json (j : json) : option (list PasswordEntry) :=
  match j with
  | JArray elems => mapM from_json elems
  | _ => None
  end.

Module Vault.

(** [class Vault]: its only member is [m_entries]. *)
Record t : Type := mk { m_entries : list PasswordEntry }.

Definition empty : t := mk [].

(** Step 1 of [save]: [json j = m_entries; j.dump(4)]. *)
Definition serialize `{JsonLib} (entries : list PasswordEntry) : option string :=
  dump (entries_to_json entries) 4.

(** Step 3 of [load]: [json::parse] and [get<std::vector<PasswordEntry>>()];
    [None] is the [json::exception] the [catch] clause receives. *)
Definition deserialize `{JsonLib} (text : string) : option (list PasswordEntry) :=
  parse text ≫= entries_from_json.

(** [Vault::load], Vault.cpp lines 469-507. *)
Definition load `{Sodium} `{JsonLib} (filepath password : string) (v : t)
  : World -> Outcome bool * t * World :=
  fun w =>
    match files w !! filepath with
    | None => (Returned false, v, w)
    | Some encrypted_data =>
        if bool_decide (encrypted_data = []) then (Returned false, v, w)
        else
          match Crypto.decrypt encrypted_data password w with
          | (Threw e, w') => (Threw e, v, w')
          | (Returned None, w') => (Returned false, v, w')
          | (Returned (Some decrypted_json_string), w') =>
              match deserialize decrypted_json_string with
              | Some entries => (Returned true, mk entries, w')
              | None => (Returned false, v, w')
              end
          end
    end.

(** [Vault::save], Vault.cpp lines 509-535.  [dump] is outside the [try]
    block, so its exception leaves the function.  [filepath] names a file as
    the stream sees it (a path without zero characters), and once the file is
    open the write is taken to store all bytes: the code does not look at the
    result of [write] either. *)
Definition save `{Sodium} `{JsonLib} (filepath password : string) (v : t)
  : World -> Outcome bool * World :=
  fun w =>
    match serialize (m_entries v) with
    | None => (Threw json_exception, w)
    | Some json_string =>
        match Crypto.encrypt json_string password w with
        | (Threw e, w') => (Returned false, w')
        | (Returned encrypted_data, w') =>
            if bool_decide (filepath ∈ unwritable w') then (Returned false, w')
            else (Returned true,
                  set_files (<[filepath := encrypted_data]> (files w')) w')
        end
    end.

(** The identifiers held by a vault, in order. *)
Definition ids (v : t) : list N := id <$> m_entries v.

(** [Vault::clear]. *)
Definition clear (v : t) : t := mk [].

(** [Vault::getEntries]. *)
Definition getEntries (v : t) : list PasswordEntry := m_entries v.

(** [Vault::addEntry]: [push_back]. *)
Definition addEntry (entry : PasswordEntry) (v : t) : t :=
  mk (m_entries v ++ [entry]).

(** [std::remove_if] on a vector, as the standard library runs it: [first]
    scans, [result] is where the next kept element is moved to; [n] counts the
    elements still to scan.  Returns the vector and the new logical end. *)
Fixpoint remove_if_loop {A} (pred : A -> bool) (v : list A)
    (result first n : nat) : list A * nat :=
  match n with
  | O => (v, result)
  | S n' =>
      match v !! first with
      | None => (v, result)
      | Some x =>
          if pred x then remove_if_loop pred v result (S first) n'
          else remove_if_loop pred (<[result := x]> v) (S result) (S first) n'
      end
  end.

Definition remove_if {A} (pred : A -> bool) (v : list A) : list A * nat :=
  remove_if_loop pred v 0 0 (length v).

(** [v.erase(it, v.end())]. *)
Definition erase_to_end {A} (v : list A) (it : nat) : list A := take it v.

(** [Vault::deleteEntry], Vault.cpp lines 549-556. *)
Definition deleteEntry (id0 : N) (v : t) : t :=
  let '(moved, new_end) :=
    remove_if (fun entry => N.eqb (id entry) id0) (m_entries v) in
  mk (erase_to_end moved new_end).

(** [Vault::getEntryForEdit]: the position of the first entry with the
    identifier (the pointer the C++ returns), or [None] for [nullptr]. *)
Fixpoint find_entry (id0 : N) (entries : list PasswordEntry) : option nat :=
  match entries with
  | [] => None
  | entry :: rest =>
      if N.eqb (id entry) id0 then Some O else S <$> find_entry id0 rest
  end.

Definition getEntryForEdit (id0 : N) (v : t) : option nat :=
  find_entry id0 (m_entries v).

(** [*existing = entry] through the pointer of [getEntryForEdit]. *)
Definition assign_at (existing : nat) (entry : PasswordEntry) (v : t) : t :=
  mk (<[existing := entry]> (m_entries v)).

End Vault.

(** ** main.cpp *)

Module Ui.

Definition UPPERCASE : string := "ABCDEFGHIJKLMNOPQRSTUVWXYZ".
Definition LOWERCASE : string := "abcdefghijklmnopqrstuvwxyz".
Definition NUMBERS : string := "0123456789".
Definition SYMBOLS : string := "!@#$%^&*()_+-=[]{};:,.<>/?".

(** The alphabet [GeneratePassword] assembles from its four flags. *)
Definition char_set_of (use_upper use_lower use_numbers use_symbols : bool)
  : string :=
  let char_set := ""%string in
  let char_set := if use_upper then char_set +:+ UPPERCASE else char_set in
  let char_set := if use_lower then char_set +:+ LOWERCASE else char_set in
  let char_set := if use_numbers then char_set +:+ NUMBERS else char_set in
  let char_set := if use_symbols then char_set +:+ SYMBOLS else char_set in
  char_set.

(** [char_set[index]]; past the end it is the terminating zero. *)
Definition char_at (char_set : string) (index : N) : ascii :=
  match String.get (N.to_nat index) char_set with
  | Some c => c
  | None => zero
  end.

(** The [for] loop of [GeneratePassword] with [n] rounds to go. *)
Fixpoint generate_loop `{Sodium} (n : nat) (char_set password : string)
  : M string :=
  match n with
  | O => ret password
  | S n' =>
      let* index :=
        randombytes_uniform
          (N.of_nat (String.length char_set) mod 2 ^ 32)%N in
      generate_loop n' char_set (password +:+ String (char_at char_set index) "")
  end.

(** [GeneratePassword], main.cpp lines 45-71; [length] is an [int]. *)
Definition GeneratePassword `{Sodium} (length : Z)
    (use_upper use_lower use_numbers use_symbols : bool) : M string :=
  let char_set := char_set_of use_upper use_lower use_numbers use_symbols in
  if bool_decide (char_set = ""%string) then ret "Invalid settings"%string
  else if string_max_size <? length mod size_t_modulus then throw length_error
  else generate_loop (Z.to_nat length) char_set "".

(** [n] numbers drawn one after the other with [randombytes_uniform(upper)],
    and the text that selects the characters at these positions. *)
Fixpoint draw_indices `{Sodium} (n : nat) (upper : N) : M (list N) :=
  match n with
  | O => ret []
  | S n' =>
      let* index := randombytes_uniform upper in
      let* rest := draw_indices n' upper in
      ret (index :: rest)
  end.

Definition pick (char_set : string) (indices : list N) : string :=
  string_of_list_ascii (map (char_at char_set) indices).

(** The largest [int]. *)
Definition INT_MAX : Z := 2 ^ 31 - 1.

Inductive AppState : Type := Locked | Unlocked.

(** What the login screen keeps between frames. *)
Record Login : Type := mkLogin {
  currentState : AppState;
  loginError : string
}.

(** The "Unlock" button of [RenderLoginScreen], main.cpp lines 80-94. *)
Definition on_unlock `{Sodium} `{JsonLib} (vaultFilepath passwordBuffer : string)
    (ui : Login) (vault : Vault.t) : World -> Outcome Login * Vault.t * World :=
  fun w =>
    match Vault.load vaultFilepath passwordBuffer vault w with
    | (Threw e, vault', w') => (Threw e, vault', w')
    | (Returned true, vault', w') =>
        (Returned (mkLogin Unlocked ""), vault', w')
    | (Returned false, vault', w') =>
        match files w' !! vaultFilepath with
        | None =>
            (Returned (mkLogin Unlocked
                         "New vault created. Click 'Save' to protect it."),
             vault', w')
        | Some _ =>
            (Returned (mkLogin (currentState ui)
                         "Wrong password or corrupt vault file."),
             vault', w')
        end
    end.

(** The "Save" button of the Add/Edit popup, main.cpp lines 241-246. *)
Definition on_save_entry (currentEntry : PasswordEntry) (vault : Vault.t)
  : Vault.t :=
  match Vault.getEntryForEdit (id currentEntry) vault with
  | Some existing => Vault.assign_at existing currentEntry vault
  | None => Vault.addEntry currentEntry vault
  end.

(** The "Delete" button of the details pane, main.cpp line 198. *)
Definition on_delete (entry : PasswordEntry) (vault : Vault.t) : Vault.t :=
  Vault.deleteEntry (id entry) vault.

(** What the user can do to the entries of an unlocked vault. *)
Inductive action : Type :=
| SaveEntry (currentEntry : PasswordEntry)
| DeleteEntry (entry : PasswordEntry).

Definition step (vault : Vault.t) (a : action) : Vault.t :=
  match a with
  | SaveEntry e => on_save_entry e vault
  | DeleteEntry e => on_delete e vault
  end.

Definition run (actions : list action) (vault : Vault.t) : Vault.t :=
  fold_left step actions vault.

End Ui.

(** ** main.cpp, the vault window

    The handlers of [RenderMainVault] that reach the vault, with the C
    buffers ([char[128]] and the like) the widgets edit. *)

Module Panel.

(** The characters a [char*] denotes: those before the first zero. *)
Fixpoint c_str (buf : list ascii) : list ascii :=
  match buf with
  | [] => []
  | c :: rest => if bool_decide (c = zero) then [] else c :: c_str rest
  end.

(** [std::string s = buf]. *)
Definition text_of (buf : list ascii) : string :=
  string_of_list_ascii (c_str buf).

(** [strncpy(dest, src, n)]: the characters of [src] before its zero, at most
    [n] of them, then zeros up to [n]; [dest] keeps what lies behind. *)
Definition strncpy (dest src : list ascii) (n : nat) : list ascii :=
  let copied := take n (c_str src) in
  copied ++ repeat zero (n - length copied) ++ drop n dest.

(** The [static char] buffers of the Add/Edit popup, main.cpp line 208. *)
Record Buffers : Type := mkBuffers {
  titleBuf : list ascii;
  userBuf : list ascii;
  passBuf : list ascii;
  urlBuf : list ascii;
  notesBuf : list ascii
}.

(** Their state at program start: statics are zero-initialised. *)
Definition blank : Buffers :=
  mkBuffers (repeat zero 128) (repeat zero 128) (repeat zero 128)
            (repeat zero 256) (repeat zero 512).

(** The popup appears ([showAddEditPopup]), main.cpp lines 210-217. *)
Definition on_popup_open (currentEntry : PasswordEntry) (b : Buffers)
  : Buffers :=
  mkBuffers
    (strncpy (titleBuf b) (list_ascii_of_string (title currentEntry)) 127)
    (strncpy (userBuf b) (list_ascii_of_string (username currentEntry)) 127)
    (strncpy (passBuf b) (list_ascii_of_string (password currentEntry)) 127)
    (strncpy (urlBuf b) (list_ascii_of_string (url currentEntry)) 255)
    (strncpy (notesBuf b) (list_ascii_of_string (notes currentEntry)) 511).

(** The assignments at the head of the "Save" button, lines 235-239. *)
Definition entry_of_buffers (currentEntry : PasswordEntry) (b : Buffers)
  : PasswordEntry :=
  mkEntry (id currentEntry) (text_of (titleBuf b)) (text_of (userBuf b))
          (text_of (passBuf b)) (text_of (urlBuf b)) (text_of (notesBuf b)).

(** The "Save" button of the popup as a whole, lines 234-248. *)
Definition on_popup_save (currentEntry : PasswordEntry) (b : Buffers)
    (vault : Vault.t) : Vault.t :=
  Ui.on_save_entry (entry_of_buffers currentEntry b) vault.

(** "Generate & Use", main.cpp lines 265-272. *)
Definition on_generate_and_use `{Sodium} (gen_length : Z)
    (gen_use_upper gen_use_lower gen_use_numbers gen_use_symbols : bool)
    (b : Buffers) : M Buffers :=
  let* new_pass :=
    Ui.GeneratePassword gen_length gen_use_upper gen_use_lower
      gen_use_numbers gen_use_symbols in
  let copied := strncpy (passBuf b) (list_ascii_of_string new_pass) 127 in
  ret (mkBuffers (titleBuf b) (userBuf b) (<[127%nat := zero]> copied)
                 (urlBuf b) (notesBuf b)).

(** "Lock Vault", main.cpp lines 117-124: the state, the vault and the
    password buffer afterwards. *)
Definition on_lock (vault : Vault.t) (passwordBuffer : list ascii)
  : Ui.Login * Vault.t * list ascii :=
  (Ui.mkLogin Ui.Locked EmptyString,
   Vault.clear vault,
   foldl (λ buf i, <[i := zero]> buf) passwordBuffer (seq 0 128)).

(** "Save Vault", main.cpp lines 126-132. *)
Definition on_save_vault `{Sodium} `{JsonLib} (vaultFilepath : string)
    (passwordBuffer : list ascii) (ui : Ui.Login) (vault : Vault.t)
  : World -> Outcome Ui.Login * World :=
  fun w =>
    match Vault.save vaultFilepath (text_of passwordBuffer) vault w with
    | (Threw e, w') => (Threw e, w')
    | (Returned false, w') =>
        (Returned (Ui.mkLogin (Ui.currentState ui) "Failed to save vault!"), w')
    | (Returned true, w') =>
        (Returned (Ui.mkLogin (Ui.currentState ui) "Vault saved successfully."),
         w')
    end.

(** [haystack.find(needle) != std::string::npos]. *)
Fixpoint contains (needle haystack : string) : bool :=
  String.prefix needle haystack
  || match haystack with
     | EmptyString => false
     | String _ rest => contains needle rest
     end.

(** [std::transform(s.begin(), s.end(), s.begin(), ::tolower)]; what
    [::tolower] does to a character is the C library's and the locale's. *)
Fixpoint lowered (tolower : ascii -> ascii) (s : string) : string :=
  match s with
  | EmptyString => EmptyString
  | String c rest => String (tolower c) (lowered tolower rest)
  end.

(** The loop over the entry list, main.cpp lines 152-165: the rows that are
    drawn, each with the value of [entry_n] a click on it stores in
    [selectedEntry]. *)
Fixpoint entry_rows (tolower : ascii -> ascii) (filter : list ascii)
    (entries : list PasswordEntry) (entry_n : nat)
  : list (nat * PasswordEntry) :=
  match entries with
  | [] => []
  | entry :: rest =>
      let filterLower := lowered tolower (text_of filter) in
      let titleLower := lowered tolower (title entry) in
      (if bool_decide (head filter = Some zero)
          || contains filterLower titleLower
       then [(entry_n, entry)] else [])
      ++ entry_rows tolower filter rest (S entry_n)
  end.

(** The entry the details pane shows, main.cpp lines 172-173; [selectedEntry]
    is an [int], compared with a [size_t]. *)
Definition selected (selectedEntry : Z) (vault : Vault.t)
  : option PasswordEntry :=
  if bool_decide (selectedEntry ≠ -1)
     && (selectedEntry mod size_t_modulus <? size (Vault.getEntries vault))
  then Vault.getEntries vault !! Z.to_nat selectedEntry
  else None.

(** The "Delete" button of the details pane, main.cpp lines 197-200:
    [selectedEntry] and the vault afterwards. *)
Definition on_delete_selected (selectedEntry : Z) (vault : Vault.t)
  : Z * Vault.t :=
  match selected selectedEntry vault with
  | Some entry => (-1, Ui.on_delete entry vault)
  | None => (selectedEntry, vault)
  end.

(** The "Edit" button followed by the popup, main.cpp lines 190-195 and
    210-217: [currentEntry] and the buffers when the popup is drawn. *)
Definition on_edit_selected (selectedEntry : Z) (vault : Vault.t)
    (b : Buffers) : option (PasswordEntry * Buffers) :=
  entry ← selected selectedEntry vault;
  Some (entry, on_popup_open entry b).

(** A buffer of [n + 1] characters whose last one is zero, which is how the
    popup's buffers start and how the text widgets leave them. *)
Definition terminated (n : nat) (buf : list ascii) : Prop :=
  length buf = S n ∧ buf !! n = Some zero.

Definition well_formed (b : Buffers) : Prop :=
  terminated 127 (titleBuf b) ∧ terminated 127 (userBuf b)
  ∧ terminated 127 (passBuf b) ∧ terminated 255 (urlBuf b)
  ∧ terminated 511 (notesBuf b).

(** The first [n] characters of the C string of [s]. *)
Definition clipped (n : nat) (s : string) : string :=
  string_of_list_ascii (take n (c_str (list_ascii_of_string s))).

(** A text of at most [n] characters, none of them zero. *)
Definition fits (n : nat) (s : string) : Prop :=
  (zero ∉ list_ascii_of_string s) ∧ (String.length s <= n)%nat.

End Panel.

(** ** Executable stand-ins for the two libraries

    Small instances of [Sodium] and [JsonLib] on which the program model runs.
    The cipher is of course not a secure one: it only has the shape of the
    contract (a tag that depends on the key, a ciphertext 16 bytes longer than
    the message).  The JSON printer and parser cover printable ASCII text. *)

Module Toy.

Definition pad (n : nat) (l : list byte) : list byte :=
  take n (l ++ repeat x00 n).

Definition kdf (pw : string) (salt : list byte) : list byte :=
  pad 32 (rev (list_byte_of_string pw) ++ salt).

Definition tag (n k : list byte) : list byte := pad 16 (k ++ n).

Definition bytes_eqb (a b : list byte) : bool :=
  bool_decide (map Byte.to_N a = map Byte.to_N b).

Definition seal (m n k : list byte) : list byte := rev m ++ tag n k.

Definition unseal (c n k : list byte) : option (list byte) :=
  if (length c <? 16)%nat then None
  else
    let body := take (length c - 16) c in
    if bytes_eqb (drop (length c - 16) c) (tag n k) then Some (rev body)
    else None.

Definition uniform (upper : N) : M N :=
  fun w => (Returned (Byte.to_N (entropy w (cursor w)) mod upper)%N,
            set_cursor (S (cursor w)) w).

#[export] Instance sodium : Sodium := {|
  argon2id := kdf;
  crypto_secretbox_easy := seal;
  crypto_secretbox_open_easy := unseal;
  randombytes_uniform := uniform
|}.

(** *** Printing *)

Definition dquote : ascii := ascii_of_nat 34.

Definition dec (n : N) : string := NilEmpty.string_of_uint (N.to_uint n).

Definition printable (c : ascii) : bool :=
  let n := nat_of_ascii c in (32 <=? n)%nat && (n <=? 126)%nat.

Fixpoint escape (s : string) : option string :=
  match s with
  | EmptyString => Some EmptyString
  | String c r =>
      if printable c then
        r' ← escape r;
        Some (if bool_decide (c = dquote) || bool_decide (c = "\"%char)
              then String "\" (String c r') else String c r')
      else None
  end.

Definition quote (s : string) : option string :=
  e ← escape s; Some (String dquote e +:+ String dquote "").

Definition newline : string := String (ascii_of_nat 10) "".

Fixpoint spaces (n : nat) : string :=
  match n with O => "" | S n' => String " " (spaces n') end.

Fixpoint join (sep : string) (l : list string) : string :=
  match l with
  | [] => ""
  | [x] => x
  | x :: r => x +:+ sep +:+ join sep r
  end.

Definition bracket (opening closing : string) (indent cur : nat)
    (items : list string) : string :=
  match items with
  | [] => opening +:+ closing
  | _ =>
      opening +:+ newline +:+ spaces (cur + indent)
        +:+ join ("," +:+ newline +:+ spaces (cur + indent)) items
        +:+ newline +:+ spaces cur +:+ closing
  end.

Fixpoint print (indent cur : nat) (j : json) : option string :=
  match j with
  | JNull => Some "null"%string
  | JBoolean b => Some (if b then "true" else "false")%string
  | JUnsigned n => Some (dec n)
  | JInteger z =>
      Some (if z <? 0 then ("-" +:+ dec (Z.to_N (- z)))%string
            else dec (Z.to_N z))
  | JString s => quote s
  | JArray elems =>
      items ← (fix go (l : list json) : option (list string) :=
                 match l with
                 | [] => Some []
                 | x :: r =>
                     s ← print indent (cur + indent) x;
                     rs ← go r; Some (s :: rs)
                 end) elems;
      Some (bracket "[" "]" indent cur items)
  | JObject members =>
      items ← (fix go (l : list (string * json)) : option (list string) :=
                 match l with
                 | [] => Some []
                 | (k, x) :: r =>
                     q ← quote k;
                     s ← print indent (cur + indent) x;
                     rs ← go r; Some ((q +:+ ": " +:+ s)%string :: rs)
                 end) members;
      Some (bracket "{" "}" indent cur items)
  end.

(** *** Parsing *)

Fixpoint skip_ws (s : string) : string :=
  match s with
  | String c r =>
      if bool_decide (c = " "%char) || bool_decide (c = ascii_of_nat 10)
      then skip_ws r else s
  | EmptyString => s
  end.

Definition digit (c : ascii) : option N :=
  let n := nat_of_ascii c in
  if (48 <=? n)%nat && (n <=? 57)%nat then Some (N.of_nat (n - 48)) else None.

Fixpoint read_digits (acc : N) (s : string) : N * string :=
  match s with
  | String c r =>
      match digit c with
      | Some d => read_digits (10 * acc + d)%N r
      | None => (acc, s)
      end
  | EmptyString => (acc, s)
  end.

(** The text of a string literal after its opening quote. *)
Fixpoint read_string (s : string) : option (string * string) :=
  match s with
  | EmptyString => None
  | String c r =>
      if bool_decide (c = dquote) then Some (EmptyString, r)
      else if bool_decide (c = "\"%char) then
        match r with
        | String c' r' =>
            '(t, rest) ← read_string r'; Some (String c' t, rest)
        | EmptyString => None
        end
      else '(t, rest) ← read_string r; Some (String c t, rest)
  end.

Definition expect (word : string) (v : json) (s : string)
  : option (json * string) :=
  if String.prefix word s
  then Some (v, String.substring (String.length word)
                  (String.length s - String.length word) s)
  else None.

Fixpoint read_value (fuel : nat) (s : string) : option (json * string) :=
  match fuel with
  | O => None
  | S f =>
      match skip_ws s with
      | EmptyString => None
      | String c r =>
          if bool_decide (c = "n"%char) then expect "null" JNull (String c r)
          else if bool_decide (c = "t"%char)
          then expect "true" (JBoolean true) (String c r)
          else if bool_decide (c = "f"%char)
          then expect "false" (JBoolean false) (String c r)
          else if bool_decide (c = dquote)
          then '(t, rest) ← read_string r; Some (JString t, rest)
          else if bool_decide (c = "-"%char)
          then let '(n, rest) := read_digits 0 r in
               Some (JInteger (- Z.of_N n), rest)
          else if bool_decide (c = "["%char) then
            match skip_ws r with
            | String "]" rest => Some (JArray [], rest)
            | _ => '(l, rest) ← read_elems f r; Some (JArray l, rest)
            end
          else if bool_decide (c = "{"%char) then
            match skip_ws r with
            | String "}" rest => Some (JObject [], rest)
            | _ => '(l, rest) ← read_members f r; Some (JObject l, rest)
            end
          else match digit c with
               | Some _ => let '(n, rest) := read_digits 0 (String c r) in
                           Some (JUnsigned n, rest)
               | None => None
               end
      end
  end
with read_elems (fuel : nat) (s : string) : option (list json * string) :=
  match fuel with
  | O => None
  | S f =>
      '(v, r) ← read_value f s;
      match skip_ws r with
      | String "," r' => '(vs, rest) ← read_elems f r'; Some (v :: vs, rest)
      | String "]" rest => Some ([v], rest)
      | _ => None
      end
  end
with read_members (fuel : nat) (s : string)
  : option (list (string * json) * string) :=
  match fuel with
  | O => None
  | S f =>
      match skip_ws s with
      | String c r =>
          if bool_decide (c = dquote) then
            '(k, r1) ← read_string r;
            match skip_ws r1 with
            | String ":" r2 =>
                '(v, r3) ← read_value f r2;
                match skip_ws r3 with
                | String "," r4 =>
                    '(kvs, rest) ← read_members f r4;
                    Some ((k, v) :: kvs, rest)
                | String "}" rest => Some ([(k, v)], rest)
                | _ => None
                end
            | _ => None
            end
          else None
      | EmptyString => None
      end
  end.

Definition read (s : string) : option json :=
  '(v, rest) ← read_value (2 * String.length s + 2) s;
  match skip_ws rest with
  | EmptyString => Some v
  | _ => None
  end.

#[export] Instance json_lib : JsonLib := {|
  dump := fun j indent => print indent 0 j;
  parse := read
|}.

(** *** A world and a vault to run on *)

Definition noise (i : nat) : byte :=
  default x00 (Byte.of_nat ((i * 37 + 11) mod 256)).

Definition world (memory : N) (fs : gmap string (list byte)) : World :=
  mkWorld noise 0 memory [] fs ∅.

Definition plenty : N := 1073741824.

(** A process that can pay for Argon2id, and one that cannot. *)
Definition fed : World := world plenty ∅.
Definition starved : World := world 0 ∅.

(** What [encrypt] makes of "hello" in the first of them. *)
Definition envelope : list byte :=
  match Crypto.encrypt "hello" "correct-password" fed with
  | (Returned blob, _) => blob
  | (Threw _, _) => []
  end.

Definition github : PasswordEntry :=
  mkEntry 1700000000000 "GitHub" "octo" ("s3cr3t \ " +:+ String dquote "x")
          "https://github.com" "".
Definition bank : PasswordEntry :=
  mkEntry 1700000000001 "Bank" "me" "hunter2" "" "pin 1234".

Definition vault : Vault.t := Vault.mk [github; bank].

(** The JSON text of that vault. *)
Definition document : string :=
  default EmptyString (@Vault.serialize json_lib (Vault.m_entries vault)).

(** An entry whose title ends in the first byte of a two-byte UTF-8
    character, as cutting a text at a buffer's capacity leaves it: "caf" and
    the byte 0xC3.  This text is not UTF-8. *)
Definition cut_short : PasswordEntry :=
  mkEntry 1700000000002 ("caf" +:+ String (ascii_of_nat 195) EmptyString)
          "me" "hunter2" "" "".

(** The world after that vault was saved under "correct-password". *)
Definition saved : World :=
  (@Vault.save sodium json_lib "my_vault.db" "correct-password" vault fed).2.

End Toy.

(** * Properties *)

(** ** The entry store *)

Section EntryStore.

Implicit Types (v : Vault.t) (e entry : PasswordEntry) (l : list PasswordEntry).

(** The compaction loop of [remove_if]: with [kept] already in place, a gap of
    stale slots behind it and [todo] still to scan, the first [new_end] slots of
    the final vector are [kept] followed by what [todo] keeps. *)
Lemma remove_if_loop_take {A} (pred : A -> bool) (todo kept gap : list A) :
  let '(moved, new_end) :=
    Vault.remove_if_loop pred (kept ++ gap ++ todo)
      (length kept) (length kept + length gap) (length todo) in
  take new_end moved = kept ++ filter (λ x, pred x = false) todo.
Proof.
  revert kept gap. induction todo as [|x todo IH]; intros kept gap; simpl.
  - rewrite app_nil_r, take_app_length. by rewrite app_nil_r.
  - assert (Hx : (kept ++ gap ++ x :: todo) !! (length kept + length gap)%nat
                 = Some x).
    { rewrite lookup_app_r by lia.
      replace (length kept + length gap - length kept)%nat with (length gap) by lia.
      by rewrite list_lookup_middle. }
    rewrite Hx. destruct (pred x) eqn:Hp.
    + rewrite filter_cons_False by (rewrite Hp; discriminate).
      specialize (IH kept (gap ++ [x])).
      rewrite length_app in IH. simpl in IH.
      rewrite <- (assoc_L (++) gap [x] todo) in IH. simpl in IH.
      by rewrite Nat.add_1_r, <- plus_n_Sm in IH.
    + rewrite filter_cons_True by done.
      assert (Hins : forall y rest,
                 <[length kept := x]> (kept ++ y :: rest) = kept ++ x :: rest).
      { intros y rest. induction kept as [|k kept IHk]; simpl; [done|].
        by rewrite IHk. }
      destruct gap as [|g gap].
      * change (kept ++ [] ++ x :: todo) with (kept ++ x :: todo).
        rewrite Hins.
        specialize (IH (kept ++ [x]) []).
        rewrite length_app in IH. simpl in IH.
        rewrite <- (assoc_L (++) kept [x]) in IH. simpl in IH.
        rewrite Nat.add_0_r in *.
        rewrite <- (assoc_L (++) kept [x]) in IH. simpl in IH.
        by rewrite Nat.add_1_r in IH.
      * change (kept ++ (g :: gap) ++ x :: todo)
          with (kept ++ g :: (gap ++ x :: todo)).
        rewrite Hins.
        specialize (IH (kept ++ [x]) (gap ++ [x])).
        rewrite !length_app in IH. simpl in IH.
        rewrite <- !(assoc_L (++) kept [x]) in IH. simpl in IH.
        rewrite <- (assoc_L (++) gap [x] todo) in IH. simpl in IH.
        replace (length kept + 1 + (length gap + 1))%nat
          with (S (length kept + S (length gap))) in IH by lia.
        by rewrite Nat.add_1_r in IH.
Qed.

(** [erase(remove_if(...), end())] is the filter. *)
Lemma erase_remove_if {A} (pred : A -> bool) (v : list A) :
  Vault.erase_to_end (Vault.remove_if pred v).1 (Vault.remove_if pred v).2
  = filter (λ x, pred x = false) v.
Proof.
  unfold Vault.remove_if, Vault.erase_to_end.
  pose proof (remove_if_loop_take pred v [] []) as H. simpl in H.
  by destruct (Vault.remove_if_loop pred v 0 0 (length v)).
Qed.

Lemma deleteEntry_filter id0 v :
  Vault.m_entries (Vault.deleteEntry id0 v)
  = filter (λ e, id e ≠ id0) (Vault.m_entries v).
Proof.
  unfold Vault.deleteEntry.
  pose proof (erase_remove_if (λ entry, N.eqb (id entry) id0) (Vault.m_entries v)) as H.
  destruct (Vault.remove_if _ _) as [moved new_end]. simpl in *. rewrite H.
  apply list_filter_iff. intros e. rewrite N.eqb_neq. done.
Qed.

(** C10. [deleteEntry id0] keeps exactly the entries whose identifier is not
    [id0], in their order: no entry with [id0] is left however many there
    were, every other entry stays as often as it occurred, the result is a
    subsequence of the old collection, and a vault that holds no entry with
    [id0] is unchanged. *)
Theorem deleteEntry_removes_every_match (id0 : N) (v : Vault.t) :
  let before := Vault.m_entries v in
  let after := Vault.m_entries (Vault.deleteEntry id0 v) in
  after = filter (λ e, id e ≠ id0) before
  ∧ (∀ e, e ∈ after ↔ e ∈ before ∧ id e ≠ id0)
  ∧ sublist after before
  ∧ (id0 ∉ id <$> before → Vault.deleteEntry id0 v = v).
Proof.
  cbv zeta. rewrite deleteEntry_filter. split_and!.
  - done.
  - intros e. rewrite list_elem_of_filter. tauto.
  - apply sublist_filter.
  - intros Hfresh.
    assert (Hsame : Vault.m_entries (Vault.deleteEntry id0 v) = Vault.m_entries v).
    { rewrite deleteEntry_filter.
      induction (Vault.m_entries v) as [|e l IH]; [done|].
      rewrite fmap_cons, not_elem_of_cons in Hfresh.
      destruct Hfresh as [Hne Hl].
      rewrite filter_cons_True by done. f_equal. by apply IH. }
    destruct (Vault.deleteEntry id0 v), v; simpl in *; congruence.
Qed.

(** *** Identifiers *)

Lemma find_entry_Some id0 l k :
  Vault.find_entry id0 l = Some k → ∃ e, l !! k = Some e ∧ id e = id0.
Proof.
  revert k. induction l as [|e l IH]; intros k; simpl; [done|].
  destruct (N.eqb_spec (id e) id0) as [Heq|Hne].
  - intros [= <-]. eauto.
  - destruct (Vault.find_entry id0 l) as [k'|]; simpl; [|done].
    intros [= <-]. by apply IH.
Qed.

Lemma find_entry_None id0 l :
  Vault.find_entry id0 l = None → id0 ∉ id <$> l.
Proof.
  induction l as [|e l IH]; simpl.
  - intros _. apply not_elem_of_nil.
  - destruct (N.eqb_spec (id e) id0) as [Heq|Hne]; [done|].
    destruct (Vault.find_entry id0 l); simpl; [done|].
    intros _. rewrite not_elem_of_cons. split; [done|]. by apply IH.
Qed.

(** [addEntry] is sound for a fresh identifier only. *)
Lemma addEntry_fresh_NoDup e v :
  NoDup (Vault.ids v) → id e ∉ Vault.ids v →
  NoDup (Vault.ids (Vault.addEntry e v)).
Proof.
  unfold Vault.ids. simpl. intros Hnd Hfresh. rewrite fmap_app. simpl.
  apply NoDup_app. split_and!; [done| |apply NoDup_singleton].
  intros x Hx Hin. apply list_elem_of_singleton in Hin. by subst.
Qed.

Lemma deleteEntry_NoDup id0 v :
  NoDup (Vault.ids v) → NoDup (Vault.ids (Vault.deleteEntry id0 v)).
Proof.
  unfold Vault.ids. rewrite deleteEntry_filter. intros Hnd.
  eapply sublist_NoDup; [exact Hnd | apply fmap_sublist, sublist_filter].
Qed.

(** The popup edits in place when the identifier exists: the identifiers of
    the vault do not change then. *)
Lemma on_save_entry_ids e v :
  Vault.ids (Ui.on_save_entry e v)
  = if bool_decide (id e ∈ Vault.ids v) then Vault.ids v
    else Vault.ids v ++ [id e].
Proof.
  unfold Ui.on_save_entry, Vault.getEntryForEdit, Vault.ids.
  destruct (Vault.find_entry (id e) (Vault.m_entries v)) as [k|] eqn:Hfind.
  - apply find_entry_Some in Hfind as (e' & Hk & Hid). simpl.
    rewrite bool_decide_eq_true_2.
    + rewrite list_fmap_insert, <- Hid. apply list_insert_id.
      by rewrite list_lookup_fmap, Hk.
    + rewrite <- Hid. apply list_elem_of_fmap. exists e'. split; [done|].
      by eapply list_elem_of_lookup_2.
  - apply find_entry_None in Hfind. rewrite bool_decide_eq_false_2 by done.
    simpl. by rewrite fmap_app.
Qed.

Lemma step_NoDup a v : NoDup (Vault.ids v) → NoDup (Vault.ids (Ui.step v a)).
Proof.
  intros Hnd. destruct a as [e|e]; simpl.
  - rewrite on_save_entry_ids. case_bool_decide as Hin; [done|].
    apply NoDup_app. split_and!; [done| |apply NoDup_singleton].
    intros x Hx Hx'. apply list_elem_of_singleton in Hx'. by subst.
  - by apply deleteEntry_NoDup.
Qed.

(** C3, as the code has it.  The vault is only ever changed through the
    "Save" button of the popup, which looks the identifier up and edits the
    existing entry in place, and through "Delete"; after any sequence of these
    two, started from the empty vault, the identifiers are pairwise distinct. *)
Theorem identifiers_unique_through_ui (actions : list Ui.action) :
  NoDup (Vault.ids (Ui.run actions Vault.empty)).
Proof.
  unfold Ui.run.
  assert (H : ∀ v, NoDup (Vault.ids v) →
                   NoDup (Vault.ids (fold_left Ui.step actions v))).
  { induction actions as [|a actions IH]; intros v Hv; simpl; [done|].
    by apply IH, step_NoDup. }
  apply H. apply NoDup_nil_2.
Qed.

(** C3, as the claim states it, fails: [addEntry] appends whatever it is
    given, so adding one entry twice leaves two records with one identifier. *)
Lemma addEntry_duplicates_identifier :
  let v := Vault.addEntry Toy.bank (Vault.addEntry Toy.bank Vault.empty) in
  Vault.m_entries v = [Toy.bank; Toy.bank] ∧ ¬ NoDup (Vault.ids v).
Proof.
  split; [reflexivity|].
  intros Hnd. apply NoDup_cons_1_1 in Hnd. apply Hnd. by left.
Qed.

End EntryStore.

(** ** The envelope *)

Section Envelope.

Context `{S : Sodium}.

Lemma fill_exact (buf m : list byte) : length buf = length m → fill buf m = m.
Proof.
  intros Hlen. unfold fill. rewrite Hlen, drop_ge by lia.
  rewrite app_nil_r. apply take_ge. lia.
Qed.

Lemma length_fill (buf m : list byte) : length (fill buf m) = length buf.
Proof. unfold fill. rewrite length_take, length_app, length_drop. lia. Qed.

Lemma size_nonneg {A} (l : list A) : 0 <= size l.
Proof. unfold size. lia. Qed.

Lemma size_app {A} (l k : list A) : size (l ++ k) = size l + size k.
Proof. unfold size. rewrite length_app. lia. Qed.

Lemma size_list_byte_of_string (s : string) :
  size (list_byte_of_string s) = Z.of_nat (String.length s).
Proof.
  unfold size, list_byte_of_string. f_equal. rewrite length_map.
  induction s; simpl; congruence.
Qed.

Lemma size_salt_drawn w : size (Crypto.salt_drawn w) = crypto_pwhash_SALTBYTES.
Proof. unfold size, Crypto.salt_drawn. by rewrite length_map, length_seq. Qed.

Lemma size_nonce_drawn w :
  size (Crypto.nonce_drawn w) = crypto_secretbox_NONCEBYTES.
Proof. unfold size, Crypto.nonce_drawn. by rewrite length_map, length_seq. Qed.

Lemma crypto_pwhash_enough (pw : string) (salt : list byte) (w : World) :
  (crypto_pwhash_MEMLIMIT_INTERACTIVE <= free_memory w)%N →
  crypto_pwhash pw salt w =
    (Returned (Some (argon2id pw (take 16 salt))), log_kdf pw (take 16 salt) w).
Proof.
  intros Hmem. unfold crypto_pwhash. apply N.leb_le in Hmem. by rewrite Hmem.
Qed.

Lemma crypto_pwhash_exhausted (pw : string) (salt : list byte) (w : World) :
  (free_memory w < crypto_pwhash_MEMLIMIT_INTERACTIVE)%N →
  crypto_pwhash pw salt w = (Returned None, log_kdf pw (take 16 salt) w).
Proof.
  intros Hmem. unfold crypto_pwhash. apply N.leb_gt in Hmem. by rewrite Hmem.
Qed.

Lemma new_vector_returns (n : Z) (w : World) :
  n <= vector_max_size →
  new_vector n w = (Returned (repeat x00 (Z.to_nat n)), w).
Proof.
  intros Hn. unfold new_vector. apply Z.ltb_ge in Hn. by rewrite Hn.
Qed.

Lemma new_vector_throws (n : Z) (w : World) :
  vector_max_size < n → new_vector n w = (Threw length_error, w).
Proof.
  intros Hn. unfold new_vector. apply Z.ltb_lt in Hn. by rewrite Hn.
Qed.

Lemma take_salt_drawn w : take 16 (Crypto.salt_drawn w) = Crypto.salt_drawn w.
Proof.
  apply take_ge. unfold Crypto.salt_drawn. by rewrite length_map, length_seq.
Qed.

(** [encrypt] when the key derivation gets its memory. *)
Lemma encrypt_returns (data password : string) (w : World) :
  (crypto_pwhash_MEMLIMIT_INTERACTIVE <= free_memory w)%N →
  representable data →
  Crypto.encrypt data password w =
    (Returned (Crypto.salt_drawn w ++ Crypto.nonce_drawn w ++
               fill (repeat x00 (length (list_byte_of_string data) + 16))
                    (crypto_secretbox_easy (list_byte_of_string data)
                       (Crypto.nonce_drawn w)
                       (argon2id password (Crypto.salt_drawn w)))),
     Crypto.after_encrypt password w).
Proof.
  intros Hmem Hrep. unfold Crypto.encrypt, bind.
  change (randombytes_buf crypto_pwhash_SALTBYTES w)
    with (Returned (Crypto.salt_drawn w), set_cursor (cursor w + 16) w).
  cbv beta iota.
  rewrite crypto_pwhash_enough, take_salt_drawn by done.
  change (randombytes_buf crypto_secretbox_NONCEBYTES ?w')
    with (Returned (map (entropy w) (seq (cursor w + 16) 24)),
          Crypto.after_encrypt password w).
  cbv beta iota.
  rewrite new_vector_returns.
  - unfold ret, size, crypto_secretbox_MACBYTES.
    replace (Z.to_nat (Z.of_nat (length (list_byte_of_string data)) + 16))
      with (length (list_byte_of_string data) + 16)%nat by lia.
    done.
  - unfold representable, string_max_size in Hrep.
    unfold vector_max_size, crypto_secretbox_MACBYTES. lia.
Qed.

(** [encrypt] when the key derivation cannot get its memory. *)
Lemma encrypt_throws (data password : string) (w : World) :
  (free_memory w < crypto_pwhash_MEMLIMIT_INTERACTIVE)%N →
  (Crypto.encrypt data password w).1 =
    Threw (runtime_error "Failed to derive encryption key (out of memory?)").
Proof.
  intros Hmem. unfold Crypto.encrypt, bind.
  change (randombytes_buf crypto_pwhash_SALTBYTES w)
    with (Returned (Crypto.salt_drawn w), set_cursor (cursor w + 16) w).
  cbv beta iota. by rewrite crypto_pwhash_exhausted.
Qed.

(** *** [decrypt], case by case on the length of the envelope *)

Lemma size_t_sub_exact (a b : Z) :
  0 <= b <= a → a < size_t_modulus → size_t_sub a b = a - b.
Proof. intros Hb Ha. unfold size_t_sub. apply Z.mod_small. lia. Qed.

(** Past the length guard, [decrypt] is key derivation, allocation of the
    plaintext buffer and opening of the box. *)
Lemma decrypt_past_guard (envelope : list byte) (pw : string) (w : World) :
  40 <= size envelope <= vector_max_size →
  Crypto.decrypt envelope pw w =
    (let* key := crypto_pwhash pw envelope in
     match key with
     | None => ret None
     | Some key =>
         let* decrypted_data :=
           new_vector (size_t_sub (size envelope - 40) 16) in
         match crypto_secretbox_open_easy (Crypto.sealed_of envelope)
                 (Crypto.nonce_of envelope) key with
         | None => ret None
         | Some m => ret (Some (string_of_list_byte (fill decrypted_data m)))
         end
     end) w.
Proof.
  intros [Hlo Hhi]. unfold Crypto.decrypt.
  unfold crypto_pwhash_SALTBYTES, crypto_secretbox_NONCEBYTES,
    crypto_secretbox_MACBYTES, vector_max_size in *.
  destruct (size envelope <? 16 + 24) eqn:Hguard; [apply Z.ltb_lt in Hguard; lia|].
  rewrite (size_t_sub_exact (size envelope) 16) by (unfold size_t_modulus; lia).
  rewrite (size_t_sub_exact (size envelope - 16) 24)
    by (unfold size_t_modulus; lia).
  replace (size envelope - 16 - 24) with (size envelope - 40) by lia.
  replace (take (Z.to_nat (size envelope - 40)) (drop (Z.to_nat (16 + 24)) envelope))
    with (Crypto.sealed_of envelope).
  - done.
  - unfold Crypto.sealed_of. change (Z.to_nat (16 + 24)) with 40%nat.
    symmetry. apply take_ge. rewrite length_drop. unfold size. lia.
Qed.

(** Below SALTBYTES + NONCEBYTES the guard answers and nothing else runs. *)
Lemma decrypt_below_guard (envelope : list byte) (pw : string) (w : World) :
  size envelope < crypto_pwhash_SALTBYTES + crypto_secretbox_NONCEBYTES →
  Crypto.decrypt envelope pw w = (Returned None, w).
Proof.
  intros Hlen. unfold Crypto.decrypt. apply Z.ltb_lt in Hlen. by rewrite Hlen.
Qed.

(** From SALTBYTES + NONCEBYTES up to the length of an empty box the key is
    derived, and then the size of the plaintext buffer wraps around. *)
Lemma decrypt_tagless (envelope : list byte) (pw : string) (w : World) :
  40 <= size envelope < 56 →
  Crypto.decrypt envelope pw w =
    (if (crypto_pwhash_MEMLIMIT_INTERACTIVE <=? free_memory w)%N
     then Threw length_error else Returned None,
     log_kdf pw (Crypto.salt_of envelope) w).
Proof.
  intros Hlen. rewrite decrypt_past_guard by (unfold vector_max_size; lia).
  unfold bind. destruct (N.leb_spec crypto_pwhash_MEMLIMIT_INTERACTIVE
                           (free_memory w)) as [Hmem|Hmem].
  - rewrite crypto_pwhash_enough by done.
    rewrite new_vector_throws; [done|].
    unfold size_t_sub, size_t_modulus, vector_max_size.
    rewrite <- (Z.mod_add (size envelope - 40 - 16) 1 (2 ^ 64)) by lia.
    rewrite Z.mod_small; lia.
  - by rewrite crypto_pwhash_exhausted.
Qed.

(** A full-length envelope whose key derivation fails. *)
Lemma decrypt_exhausted (envelope : list byte) (pw : string) (w : World) :
  40 <= size envelope <= vector_max_size →
  (free_memory w < crypto_pwhash_MEMLIMIT_INTERACTIVE)%N →
  Crypto.decrypt envelope pw w =
    (Returned None, log_kdf pw (Crypto.salt_of envelope) w).
Proof.
  intros Hlen Hmem. rewrite decrypt_past_guard by done.
  unfold bind. by rewrite crypto_pwhash_exhausted.
Qed.

(** A full-length envelope whose key derivation succeeds: the box decides. *)
Lemma decrypt_derived (envelope : list byte) (pw : string) (w : World) :
  56 <= size envelope <= vector_max_size →
  (crypto_pwhash_MEMLIMIT_INTERACTIVE <= free_memory w)%N →
  Crypto.decrypt envelope pw w =
    (match crypto_secretbox_open_easy (Crypto.sealed_of envelope) (Crypto.nonce_of envelope)
             (argon2id pw (Crypto.salt_of envelope)) with
     | None => Returned None
     | Some m =>
         Returned (Some (string_of_list_byte
           (fill (repeat x00 (length envelope - 56)) m)))
     end, log_kdf pw (Crypto.salt_of envelope) w).
Proof.
  intros Hlen Hmem. rewrite decrypt_past_guard by lia.
  unfold bind. rewrite crypto_pwhash_enough by done.
  rewrite size_t_sub_exact by (unfold size_t_modulus, vector_max_size in *; lia).
  rewrite new_vector_returns by lia.
  replace (Z.to_nat (size envelope - 40 - 16)) with (length envelope - 56)%nat
    by (unfold size; lia).
  fold (Crypto.salt_of envelope). by destruct (crypto_secretbox_open_easy _ _ _).
Qed.

End Envelope.

(** *** The stand-in primitives meet the contract *)

Lemma toy_pad_length (n : nat) (l : list byte) : length (Toy.pad n l) = n.
Proof.
  unfold Toy.pad. rewrite length_take, length_app, repeat_length. lia.
Qed.

Lemma toy_bytes_eqb_refl (l : list byte) : Toy.bytes_eqb l l = true.
Proof. unfold Toy.bytes_eqb. by apply bool_decide_eq_true_2. Qed.

Lemma toy_sodium_spec : SodiumSpec Toy.sodium.
Proof.
  split; simpl.
  - intros m n k. unfold Toy.seal, Toy.tag, size, crypto_secretbox_MACBYTES.
    rewrite length_app, length_rev, toy_pad_length. lia.
  - intros m n k. unfold Toy.unseal, Toy.seal.
    pose proof (toy_pad_length 16 (k ++ n)) as Htag. fold (Toy.tag n k) in Htag.
    rewrite length_app, Htag.
    destruct (Nat.ltb_spec (length (rev m) + 16) 16) as [Hlt|_]; [lia|].
    replace (length (rev m) + 16 - 16)%nat with (length (rev m)) by lia.
    rewrite drop_app_length, take_app_length, toy_bytes_eqb_refl.
    by rewrite rev_involutive.
  - intros upper w Hpos. eexists _, _. split; [reflexivity|].
    apply N.mod_lt. lia.
Qed.

Section EnvelopeContract.

Context {S : Sodium} {HS : SodiumSpec S}.

Lemma size_sealed (data pw : string) (w : World) :
  size (crypto_secretbox_easy (list_byte_of_string data) (Crypto.nonce_drawn w)
          (argon2id pw (Crypto.salt_drawn w)))
  = Z.of_nat (String.length data) + crypto_secretbox_MACBYTES.
Proof. by rewrite secretbox_easy_length, size_list_byte_of_string. Qed.

(** With a box of the promised length the ciphertext buffer is the box. *)
Lemma encrypt_returns_sealed (data pw : string) (w : World) :
  (crypto_pwhash_MEMLIMIT_INTERACTIVE <= free_memory w)%N →
  representable data →
  Crypto.encrypt data pw w =
    (Returned (Crypto.envelope_of data pw w), Crypto.after_encrypt pw w).
Proof.
  intros Hmem Hrep. rewrite encrypt_returns by done.
  unfold Crypto.envelope_of. do 4 f_equal.
  apply fill_exact. rewrite repeat_length.
  pose proof (size_sealed data pw w) as Hsealed.
  pose proof (size_list_byte_of_string data) as Hd.
  unfold size, crypto_secretbox_MACBYTES in *. lia.
Qed.

(** C8. When the key derivation gets its memory, [encrypt] returns the salt,
    the nonce and the sealed box in this order: 16 + 24 + (n + 16) bytes for a
    plaintext of n bytes, so 56 bytes for the empty plaintext and 61 for
    "hello". *)
Theorem encrypt_envelope_layout (data pw : string) (w : World) :
  (crypto_pwhash_MEMLIMIT_INTERACTIVE <= free_memory w)%N →
  representable data →
  let salt := Crypto.salt_drawn w in
  let nonce := Crypto.nonce_drawn w in
  let sealed :=
    crypto_secretbox_easy (list_byte_of_string data) nonce (argon2id pw salt) in
  ∃ w', Crypto.encrypt data pw w = (Returned (salt ++ nonce ++ sealed), w')
    ∧ size salt = crypto_pwhash_SALTBYTES
    ∧ size nonce = crypto_secretbox_NONCEBYTES
    ∧ size sealed = Z.of_nat (String.length data) + crypto_secretbox_MACBYTES
    ∧ size (salt ++ nonce ++ sealed)
      = crypto_pwhash_SALTBYTES + crypto_secretbox_NONCEBYTES
        + Z.of_nat (String.length data) + crypto_secretbox_MACBYTES
    ∧ (data = EmptyString →
       size (salt ++ nonce ++ sealed)
       = crypto_pwhash_SALTBYTES + crypto_secretbox_NONCEBYTES
         + crypto_secretbox_MACBYTES)
    ∧ (data = "hello"%string →
       size (salt ++ nonce ++ sealed)
       = crypto_pwhash_SALTBYTES + crypto_secretbox_NONCEBYTES + 5
         + crypto_secretbox_MACBYTES).
Proof.
  intros Hmem Hrep salt nonce sealed.
  pose proof (size_sealed data pw w) as Hsealed. fold salt nonce sealed in Hsealed.
  assert (Hall : size (salt ++ nonce ++ sealed)
                 = crypto_pwhash_SALTBYTES + crypto_secretbox_NONCEBYTES
                   + Z.of_nat (String.length data) + crypto_secretbox_MACBYTES).
  { rewrite !size_app, Hsealed. unfold salt, nonce.
    rewrite size_salt_drawn, size_nonce_drawn. lia. }
  exists (Crypto.after_encrypt pw w). split_and!.
  - by apply encrypt_returns_sealed.
  - apply size_salt_drawn.
  - apply size_nonce_drawn.
  - done.
  - done.
  - intros ->. rewrite Hall. simpl. lia.
  - intros ->. rewrite Hall. simpl. lia.
Qed.

End EnvelopeContract.

(** The layout on the stand-in cipher: "hello" gives 61 bytes. *)
Lemma encrypt_envelope_layout_witness :
  ∃ w', @Crypto.encrypt Toy.sodium "hello" "correct-password" Toy.fed
        = (Returned Toy.envelope, w')
        ∧ size Toy.envelope = 16 + 24 + 5 + 16.
Proof.
  destruct (encrypt_envelope_layout (HS := toy_sodium_spec)
              "hello" "correct-password" Toy.fed)
    as (w' & Henc & _ & _ & _ & Hsize & _).
  - by vm_compute.
  - by vm_compute.
  - exists w'. split; [exact Henc | reflexivity].
Defined.

Section LengthGuard.

Context `{S : Sodium}.

(** C4, at an envelope the claim wants rejected by the guard.  Forty zero
    bytes are shorter than salt, nonce and tag together, yet they pass the
    guard of [decrypt], which compares with SALTBYTES + NONCEBYTES only: the
    key is derived from them (the log grows by that call), and with the key
    in hand the length of the plaintext buffer, 0 - 16 in [size_t], is beyond
    [max_size()], so the call ends in [std::length_error], not in
    [std::nullopt]. *)
Theorem decrypt_forty_bytes_derives_key (pw : string) (w : World) :
  let envelope := repeat x00 40 in
  size envelope
    < crypto_pwhash_SALTBYTES + crypto_secretbox_NONCEBYTES
      + crypto_secretbox_MACBYTES
  ∧ (Crypto.decrypt envelope pw w).1
    = (if (crypto_pwhash_MEMLIMIT_INTERACTIVE <=? free_memory w)%N
       then Threw length_error else Returned None)
  ∧ kdf_calls (Crypto.decrypt envelope pw w).2
    = (pw, repeat x00 16) :: kdf_calls w.
Proof.
  intros envelope. split; [by vm_compute|].
  rewrite decrypt_tagless by (by vm_compute). done.
Qed.

End LengthGuard.

Section DecodeFailures.

Context {S : Sodium}.

(** C6, as the code has it.  [decrypt] has one failure value: it answers
    [std::nullopt] when the key derivation runs out of memory exactly as it
    does when the box does not open under the derived key, so its caller
    cannot tell the two apart.  Only [encrypt] reports a failed derivation
    on its own, by raising [std::runtime_error]. *)
Theorem decrypt_reports_every_failure_as_nullopt
    (envelope : list byte) (pw data : string) (w_starved w_fed : World) :
  56 <= size envelope <= vector_max_size →
  (free_memory w_starved < crypto_pwhash_MEMLIMIT_INTERACTIVE)%N →
  (crypto_pwhash_MEMLIMIT_INTERACTIVE <= free_memory w_fed)%N →
  crypto_secretbox_open_easy (Crypto.sealed_of envelope)
    (Crypto.nonce_of envelope) (argon2id pw (Crypto.salt_of envelope)) = None →
  (Crypto.decrypt envelope pw w_starved).1 = Returned None
  ∧ (Crypto.decrypt envelope pw w_fed).1 = Returned None
  ∧ (Crypto.encrypt data pw w_starved).1
    = Threw (runtime_error "Failed to derive encryption key (out of memory?)").
Proof.
  intros Hlen Hstarved Hfed Hopen. split_and!.
  - rewrite decrypt_exhausted; [done|lia|done].
  - rewrite decrypt_derived, Hopen; done.
  - by apply encrypt_throws.
Qed.

End DecodeFailures.

(** Both failures on the stand-in cipher, for the envelope of "hello". *)
Lemma decrypt_reports_every_failure_as_nullopt_witness :
  (@Crypto.decrypt Toy.sodium Toy.envelope "wrong-password" Toy.starved).1
  = Returned None
  ∧ (@Crypto.decrypt Toy.sodium Toy.envelope "wrong-password" Toy.fed).1
    = Returned None.
Proof.
  destruct (decrypt_reports_every_failure_as_nullopt (S := Toy.sodium)
              Toy.envelope "wrong-password" "hello" Toy.starved Toy.fed)
    as (Hkdf & Hauth & _).
  - by vm_compute.
  - by vm_compute.
  - by vm_compute.
  - by vm_compute.
  - by split.
Defined.

(** C6, as the claim states it, fails.  The right password in a process
    without memory (the derivation fails) and a wrong password in a process
    with memory (the derivation succeeds, the tag does not verify) give the
    caller of [decrypt] the same value. *)
Lemma key_derivation_failure_returns_what_wrong_password_returns :
  (@crypto_pwhash Toy.sodium "correct-password" Toy.envelope Toy.starved).1
  = Returned None
  ∧ (∃ key,
       (@crypto_pwhash Toy.sodium "wrong-password" Toy.envelope Toy.fed).1
       = Returned (Some key)
       ∧ @crypto_secretbox_open_easy Toy.sodium (Crypto.sealed_of Toy.envelope)
           (Crypto.nonce_of Toy.envelope) key = None)
  ∧ (@Crypto.decrypt Toy.sodium Toy.envelope "correct-password" Toy.starved).1
    = (@Crypto.decrypt Toy.sodium Toy.envelope "wrong-password" Toy.fed).1.
Proof.
  split_and!.
  - by vm_compute.
  - eexists. split; by vm_compute.
  - by vm_compute.
Qed.

(** ** Saving and loading *)

Lemma from_json_to_json (p : PasswordEntry) : from_json (to_json p) = Some p.
Proof. by destruct p. Qed.

Lemma entries_from_json_to_json (R : list PasswordEntry) :
  entries_from_json (entries_to_json R) = Some R.
Proof.
  unfold entries_from_json, entries_to_json.
  apply mapM_Some. induction R as [|p R IH]; simpl; constructor.
  - apply from_json_to_json.
  - exact IH.
Qed.

Section RoundTrip.

Context {S : Sodium} {HS : SodiumSpec S} {J : JsonLib}.

(** The envelope [encrypt] returns opens again under the same password, in
    any world that can pay for the key derivation. *)
Lemma decrypt_envelope_of (data pw : string) (w_save w_load : World) :
  (crypto_pwhash_MEMLIMIT_INTERACTIVE <= free_memory w_load)%N →
  representable data →
  Crypto.envelope_of data pw w_save ≠ []
  ∧ Crypto.decrypt (Crypto.envelope_of data pw w_save) pw w_load
    = (Returned (Some data),
       log_kdf pw (Crypto.salt_of (Crypto.envelope_of data pw w_save)) w_load).
Proof.
  intros Hload Hrep. unfold Crypto.envelope_of.
  set (salt := Crypto.salt_drawn w_save).
  set (nonce := Crypto.nonce_drawn w_save).
  set (sealed := crypto_secretbox_easy _ _ _).
  pose proof (size_salt_drawn w_save) as Hsalt.
  pose proof (size_nonce_drawn w_save) as Hnonce.
  pose proof (size_sealed data pw w_save) as Hsealed.
  pose proof (size_list_byte_of_string data) as Hdata.
  fold salt in Hsalt, Hsealed. fold nonce in Hnonce, Hsealed.
  fold sealed in Hsealed.
  unfold representable, string_max_size in Hrep.
  unfold size, crypto_pwhash_SALTBYTES, crypto_secretbox_NONCEBYTES,
    crypto_secretbox_MACBYTES in *.
  assert (Hs : Crypto.salt_of (salt ++ nonce ++ sealed) = salt).
  { unfold Crypto.salt_of. apply take_app_length'. lia. }
  assert (Hn : Crypto.nonce_of (salt ++ nonce ++ sealed) = nonce).
  { unfold Crypto.nonce_of. rewrite drop_app_length' by lia.
    apply take_app_length'. lia. }
  assert (Hc : Crypto.sealed_of (salt ++ nonce ++ sealed) = sealed).
  { unfold Crypto.sealed_of. rewrite (assoc_L (++)).
    apply drop_app_length'. rewrite length_app. lia. }
  split.
  - intros Hnil. apply (f_equal length) in Hnil.
    rewrite length_app in Hnil. simpl in Hnil. lia.
  - rewrite decrypt_derived; [| |done].
    + rewrite Hs, Hn, Hc. unfold sealed.
      rewrite secretbox_open_easy_inverse. fold sealed.
      rewrite fill_exact, string_of_list_byte_of_string; [done|].
      rewrite repeat_length, !length_app. lia.
    + unfold size, vector_max_size. rewrite !length_app. lia.
Qed.

(** C1. Let the JSON library print the records of [R] as [text] and read
    [text] back as the value it printed, and let both runs of the key
    derivation get their memory.  Then [encrypt] returns an envelope for
    [text], [decrypt] of that envelope under the same password returns [text],
    and [deserialize] of it is exactly [R], order included.  Through the vault:
    [save] to a path that can be written, followed by [load] of that path into
    any vault, succeeds and leaves the vault holding [R]. *)
Theorem save_load_round_trip
    (R : list PasswordEntry) (P text : string) (w_save w_load : World) :
  Vault.serialize R = Some text →
  parse text = Some (entries_to_json R) →
  representable text →
  (crypto_pwhash_MEMLIMIT_INTERACTIVE <= free_memory w_save)%N →
  (crypto_pwhash_MEMLIMIT_INTERACTIVE <= free_memory w_load)%N →
  (∃ envelope w1 w2,
     Crypto.encrypt text P w_save = (Returned envelope, w1)
     ∧ Crypto.decrypt envelope P w_load = (Returned (Some text), w2)
     ∧ Vault.deserialize text = Some R)
  ∧ (∀ filepath v0, filepath ∉ unwritable w_save →
     ∃ w1 w2,
       Vault.save filepath P (Vault.mk R) w_save = (Returned true, w1)
       ∧ Vault.load filepath P v0 w1 = (Returned true, Vault.mk R, w2)).
Proof.
  intros Hdump Hparse Hrep Hsave Hload.
  assert (Hde : Vault.deserialize text = Some R).
  { unfold Vault.deserialize. rewrite Hparse. apply entries_from_json_to_json. }
  pose proof (encrypt_returns_sealed text P w_save Hsave Hrep) as Henc.
  set (envelope := Crypto.envelope_of text P w_save) in *.
  set (w1 := Crypto.after_encrypt P w_save) in *.
  split.
  - destruct (decrypt_envelope_of text P w_save w_load) as [_ Hdec]; [done..|].
    by exists envelope, w1, (log_kdf P (Crypto.salt_of envelope) w_load).
  - intros filepath v0 Hwritable.
    set (w2 := set_files (<[filepath := envelope]> (files w1)) w1).
    destruct (decrypt_envelope_of text P w_save w2) as [Hne Hdec]; [done..|].
    fold envelope in Hne, Hdec.
    exists w2, (log_kdf P (Crypto.salt_of envelope) w2). split.
    + unfold Vault.save. simpl. rewrite Hdump, Henc.
      by rewrite bool_decide_eq_false_2.
    + unfold Vault.load. simpl. rewrite lookup_insert_eq.
      rewrite bool_decide_eq_false_2 by done.
      by rewrite Hdec, Hde.
Qed.

End RoundTrip.

(** The round trip run on the stand-ins: two entries saved to a file and
    loaded into an empty vault. *)
Lemma save_load_round_trip_witness :
  ∃ w1 w2,
    @Vault.save Toy.sodium Toy.json_lib "my_vault.db" "correct-password"
      Toy.vault Toy.fed = (Returned true, w1)
    ∧ @Vault.load Toy.sodium Toy.json_lib "my_vault.db" "correct-password"
        Vault.empty w1 = (Returned true, Toy.vault, w2).
Proof.
  destruct (save_load_round_trip (HS := toy_sodium_spec) (J := Toy.json_lib)
              [Toy.github; Toy.bank] "correct-password" Toy.document
              Toy.fed Toy.fed) as [_ Hvault].
  - by vm_compute.
  - by vm_compute.
  - by vm_compute.
  - by vm_compute.
  - by vm_compute.
  - apply (Hvault "my_vault.db"%string Vault.empty). set_solver.
Defined.

(** C1, as the claim states it, fails.  The text of this entry is not UTF-8,
    so the JSON library refuses to print it: [serialize] raises, and [save],
    which calls [dump] outside its [try] block, ends in that exception
    without an envelope or a file.  There is nothing to decode and to
    deserialize. *)
Lemma save_of_text_that_is_not_utf8_throws :
  let R := [Toy.cut_short] in
  let run := @Vault.save Toy.sodium Toy.json_lib "my_vault.db"
               "correct-password" (Vault.mk R) Toy.fed in
  @Vault.serialize Toy.json_lib R = None
  ∧ run.1 = Threw json_exception
  ∧ files run.2 !! "my_vault.db"%string = None.
Proof. split_and!; by vm_compute. Qed.

Section Load.

Context {S : Sodium} {J : JsonLib}.

(** [decrypt] leaves the files as they are. *)
Lemma decrypt_files (envelope : list byte) (pw : string) (w : World) :
  files (Crypto.decrypt envelope pw w).2 = files w.
Proof.
  unfold Crypto.decrypt, bind, crypto_pwhash, new_vector, ret, throw.
  repeat (match goal with
          | |- context [if ?b then _ else _] => destruct b
          | |- context [match ?o with Some _ => _ | None => _ end] => destruct o
          end; try reflexivity).
Qed.

(** Settles one case of [load]: the hypotheses name the file and the answer
    of [decrypt], which either agree with the run at hand or contradict it. *)
Ltac load_case :=
  intros; simplify_eq/=;
  repeat match goal with
         | H : Crypto.decrypt ?e ?p ?w = _,
           H' : context [Crypto.decrypt ?e ?p ?w] |- _ => rewrite H in H'
         end;
  simplify_eq/=; try done.

(** C7. [load] either returns [true] with the vault holding exactly the
    records that the decrypted text of the file deserializes to, or it does
    not return [true] and the vault is the one it was given.  The second
    case covers the missing file, the empty file, the file [decrypt] rejects
    and the file whose plaintext does not deserialize. *)
Theorem load_replaces_or_keeps
    (filepath pw : string) (v : Vault.t) (w : World) :
  ∃ outcome v' w',
    Vault.load filepath pw v w = (outcome, v', w')
    ∧ ((outcome = Returned true
        ∧ ∃ envelope text R,
            files w !! filepath = Some envelope
            ∧ (Crypto.decrypt envelope pw w).1 = Returned (Some text)
            ∧ Vault.deserialize text = Some R
            ∧ v' = Vault.mk R)
       ∨ (outcome ≠ Returned true ∧ v' = v))
    ∧ (files w !! filepath = None → outcome = Returned false ∧ v' = v)
    ∧ (files w !! filepath = Some [] → outcome = Returned false ∧ v' = v)
    ∧ (∀ envelope,
         files w !! filepath = Some envelope →
         (Crypto.decrypt envelope pw w).1 = Returned None →
         outcome = Returned false ∧ v' = v)
    ∧ (∀ envelope text,
         files w !! filepath = Some envelope →
         (Crypto.decrypt envelope pw w).1 = Returned (Some text) →
         Vault.deserialize text = None →
         outcome = Returned false ∧ v' = v).
Proof.
  unfold Vault.load.
  destruct (files w !! filepath) as [envelope|] eqn:Hfile.
  - case_bool_decide as Hempty.
    + subst envelope. eexists _, _, _. split; [reflexivity|].
      split_and!; [by right | load_case..].
    + destruct (Crypto.decrypt envelope pw w) as [[[text|]|e] w1] eqn:Hdec.
      * destruct (Vault.deserialize text) as [R|] eqn:Hde.
        -- eexists _, _, _. split; [reflexivity|]. split_and!; [|load_case..].
           left. split; [done|]. exists envelope, text, R. by rewrite Hdec.
        -- eexists _, _, _. split; [reflexivity|].
           split_and!; [by right | load_case..].
      * eexists _, _, _. split; [reflexivity|].
        split_and!; [by right | load_case..].
      * eexists _, _, _. split; [reflexivity|].
        split_and!; [by right | load_case..].
  - eexists _, _, _. split; [reflexivity|].
    split_and!; [by right | load_case..].
Qed.

(** C5, as the code has it.  [load] answers [false] for a path that does not
    exist, and it answers the same [false] for a file that [decrypt] rejects.
    The login screen tells the two apart afterwards, by opening the file once
    more: when that fails the vault counts as new and is unlocked, otherwise
    the user reads "Wrong password or corrupt vault file." and the screen
    stays in the state it was in. *)
Theorem unlock_probes_the_file_after_load
    (filepath pw : string) (ui : Ui.Login) (v : Vault.t) (w : World) :
  (files w !! filepath = None →
     Vault.load filepath pw v w = (Returned false, v, w)
     ∧ Ui.on_unlock filepath pw ui v w
       = (Returned (Ui.mkLogin Ui.Unlocked
                      "New vault created. Click 'Save' to protect it."),
          v, w))
  ∧ (∀ envelope,
       files w !! filepath = Some envelope →
       (Crypto.decrypt envelope pw w).1 = Returned None →
       ∃ w',
         Vault.load filepath pw v w = (Returned false, v, w')
         ∧ Ui.on_unlock filepath pw ui v w
           = (Returned (Ui.mkLogin (Ui.currentState ui)
                          "Wrong password or corrupt vault file."),
              v, w')).
Proof.
  split.
  - intros Hfile. unfold Ui.on_unlock, Vault.load. by rewrite !Hfile.
  - intros envelope Hfile Hdec. unfold Ui.on_unlock, Vault.load.
    rewrite Hfile. case_bool_decide as Hempty.
    + exists w. by rewrite Hfile.
    + pose proof (decrypt_files envelope pw w) as Hfiles.
      destruct (Crypto.decrypt envelope pw w) as [o w1]. simpl in *. subst o.
      exists w1. by rewrite Hfiles, Hfile.
Qed.

End Load.

(** C5, as the claim states it, fails: with a vault file on disk and a wrong
    password, [load] hands its caller exactly what it hands it for a path
    where there is no file. *)
Lemma load_of_missing_file_returns_what_wrong_password_returns :
  let w := Toy.world Toy.plenty {[ "my_vault.db"%string := Toy.envelope ]} in
  files w !! "no_such.db"%string = None
  ∧ files w !! "my_vault.db"%string = Some Toy.envelope
  ∧ (@Vault.load Toy.sodium Toy.json_lib
       "no_such.db" "correct-password" Toy.vault w).1
    = (Returned false, Toy.vault)
  ∧ (@Vault.load Toy.sodium Toy.json_lib
       "my_vault.db" "wrong-password" Toy.vault w).1
    = (Returned false, Toy.vault).
Proof. split_and!; by vm_compute. Qed.

(** ** The password generator *)

Section Generator.

Context {S : Sodium} {HS : SodiumSpec S}.

Lemma append_String (a : string) (c : ascii) (b : string) :
  (a +:+ String c EmptyString) +:+ b = a +:+ String c b.
Proof.
  induction a as [|x a IH]; [done|].
  change (String x ((a +:+ String c EmptyString) +:+ b) = String x (a +:+ String c b)).
  by rewrite IH.
Qed.

Lemma append_empty (a : string) : a +:+ EmptyString = a.
Proof.
  induction a as [|x a IH]; [done|].
  change (String x (a +:+ EmptyString) = String x a). by rewrite IH.
Qed.

Lemma length_pick (char_set : string) (indices : list N) :
  String.length (Ui.pick char_set indices) = length indices.
Proof.
  unfold Ui.pick. induction indices as [|i indices IH]; simpl; [done|].
  by rewrite IH.
Qed.

Lemma char_at_in (char_set : string) (i : N) :
  (i < N.of_nat (String.length char_set))%N →
  Ui.char_at char_set i ∈ list_ascii_of_string char_set.
Proof.
  unfold Ui.char_at. intros Hi.
  assert (Hn : (N.to_nat i < String.length char_set)%nat) by lia.
  clear Hi. revert Hn. generalize (N.to_nat i) as n.
  induction char_set as [|c cs IH]; intros n Hn; simpl in *; [lia|].
  destruct n as [|n]; [by left|]. right. apply IH. lia.
Qed.

(** The loop draws one index per round and appends the character there. *)
Lemma generate_loop_draws (n : nat) (char_set acc : string) (w : World) :
  (0 < N.of_nat (String.length char_set) < 2 ^ 32)%N →
  ∃ indices w',
    Ui.draw_indices n (N.of_nat (String.length char_set)) w
    = (Returned indices, w')
    ∧ Ui.generate_loop n char_set acc w
      = (Returned (acc +:+ Ui.pick char_set indices), w')
    ∧ length indices = n
    ∧ Forall (λ i, (i < N.of_nat (String.length char_set))%N) indices.
Proof.
  intros Hlen. revert acc w. induction n as [|n IH]; intros acc w.
  - exists [], w. simpl. unfold ret. by rewrite append_empty.
  - simpl. unfold bind. rewrite N.mod_small by lia.
    destruct (randombytes_uniform_bound (N.of_nat (String.length char_set)) w)
      as (r & w1 & Hdraw & Hr); [lia|].
    rewrite Hdraw.
    destruct (IH (acc +:+ String (Ui.char_at char_set r) EmptyString) w1)
      as (indices & w2 & Hrest & Hloop & Hn & Hall).
    exists (r :: indices), w2. rewrite Hrest, Hloop. unfold ret.
    split_and!; [done| |simpl; lia|by constructor].
    by rewrite append_String.
Qed.

(** The character [char_at] selects is the one at the index. *)
Lemma char_at_lookup (char_set : string) (i : N) :
  (i < N.of_nat (String.length char_set))%N →
  list_ascii_of_string char_set !! N.to_nat i = Some (Ui.char_at char_set i).
Proof.
  unfold Ui.char_at. intros Hi.
  assert (Hn : (N.to_nat i < String.length char_set)%nat) by lia.
  clear Hi. revert Hn. generalize (N.to_nat i) as n.
  induction char_set as [|c cs IH]; intros n Hn; simpl in *; [lia|].
  destruct n as [|n]; [done|]. simpl. apply IH. lia.
Qed.

(** C9. With no character class selected [GeneratePassword] returns the text
    "Invalid settings".  With at least one selected and a length between 0
    and [INT_MAX] it returns a text of exactly that length.  The alphabet is
    the upper-case letters, the lower-case letters, the digits and the 26
    symbols, in this order, each class present when selected; the function
    draws one index per character with [randombytes_uniform] bounded by the
    size of the alphabet, each index is below that size, and the n-th
    character of the text is the character of the alphabet at the n-th index
    drawn. *)
Theorem GeneratePassword_selects_from_char_set
    (length : Z) (use_upper use_lower use_numbers use_symbols : bool)
    (w : World) :
  0 <= length <= Ui.INT_MAX →
  let alphabet : list ascii :=
    (if use_upper then list_ascii_of_string "ABCDEFGHIJKLMNOPQRSTUVWXYZ"
     else [])
    ++ (if use_lower then list_ascii_of_string "abcdefghijklmnopqrstuvwxyz"
        else [])
    ++ (if use_numbers then list_ascii_of_string "0123456789" else [])
    ++ (if use_symbols then list_ascii_of_string "!@#$%^&*()_+-=[]{};:,.<>/?"
        else []) in
  let classes := use_upper || use_lower || use_numbers || use_symbols in
  (classes = false →
     Ui.GeneratePassword length use_upper use_lower use_numbers use_symbols w
     = (Returned "Invalid settings"%string, w))
  ∧ (classes = true →
     ∃ indices password w',
       Ui.draw_indices (Z.to_nat length)
         (N.of_nat (Datatypes.length alphabet)) w
       = (Returned indices, w')
       ∧ Ui.GeneratePassword length use_upper use_lower use_numbers
           use_symbols w
         = (Returned password, w')
       ∧ Z.of_nat (String.length password) = length
       ∧ Forall (λ i, (i < N.of_nat (Datatypes.length alphabet))%N) indices
       ∧ Forall2 (λ i c, alphabet !! N.to_nat i = Some c)
           indices (list_ascii_of_string password)
       ∧ Forall (λ c, c ∈ alphabet) (list_ascii_of_string password)).
Proof.
  intros Hlength alphabet classes. unfold Ui.INT_MAX in Hlength. split.
  - unfold classes. intros Hnone.
    destruct use_upper, use_lower, use_numbers, use_symbols; try done.
  - intros Hsome.
    set (char_set :=
           Ui.char_set_of use_upper use_lower use_numbers use_symbols).
    assert (Halphabet : list_ascii_of_string char_set = alphabet).
    { unfold char_set, alphabet.
      by destruct use_upper, use_lower, use_numbers, use_symbols. }
    assert (Hsize : Datatypes.length alphabet = String.length char_set).
    { rewrite <- Halphabet. clear. induction char_set; simpl; congruence. }
    assert (Hset : char_set ≠ EmptyString
                   ∧ (0 < N.of_nat (String.length char_set) < 2 ^ 32)%N).
    { unfold classes, char_set in *.
      destruct use_upper, use_lower, use_numbers, use_symbols;
        try done; by vm_compute. }
    destruct Hset as [Hne Hbound].
    destruct (generate_loop_draws (Z.to_nat length) char_set EmptyString w Hbound)
      as (indices & w' & Hdraw & Hloop & Hn & Hall).
    exists indices, (Ui.pick char_set indices), w'. rewrite Hsize.
    assert (Hat : Forall2 (λ i c, alphabet !! N.to_nat i = Some c) indices
                    (list_ascii_of_string (Ui.pick char_set indices))).
    { unfold Ui.pick. rewrite list_ascii_of_string_of_list_ascii.
      apply Forall2_fmap_r, Forall_Forall2_diag.
      eapply Forall_impl; [exact Hall|].
      intros i Hi. rewrite <- Halphabet. by apply char_at_lookup. }
    split_and!; [done| | |done|done|].
    + unfold Ui.GeneratePassword. fold char_set.
      rewrite bool_decide_eq_false_2 by done.
      destruct (string_max_size <? length mod size_t_modulus) eqn:Hmax.
      { apply Z.ltb_lt in Hmax. unfold string_max_size, size_t_modulus in Hmax.
        rewrite Z.mod_small in Hmax by lia. lia. }
      exact Hloop.
    + rewrite length_pick, Hn. lia.
    + unfold Ui.pick. rewrite list_ascii_of_string_of_list_ascii.
      apply Forall_fmap. eapply Forall_impl; [exact Hall|].
      intros i Hi. rewrite <- Halphabet. by apply char_at_in.
Qed.

End Generator.

(** Twelve characters from upper-case letters and digits, on the stand-in
    generator: the characters at the indices 11, 12, ... it draws. *)
Lemma GeneratePassword_selects_from_char_set_witness :
  ∃ w',
    @Ui.GeneratePassword Toy.sodium 12 true false true false Toy.fed
    = (Returned "LMNOPQROPQRS"%string, w').
Proof.
  destruct (GeneratePassword_selects_from_char_set (HS := toy_sodium_spec)
              12 true false true false Toy.fed) as [_ Hsome].
  - by vm_compute.
  - destruct (Hsome eq_refl) as (indices & password & w' & _ & Hgen & _).
    exists w'. rewrite Hgen. vm_compute in Hgen.
    by injection Hgen as <- _.
Defined.

(** ** Salt and nonce in the envelope *)

Section Freshness.

Context {S : Sodium}.

(** A call of [encrypt] moves the cursor of the random stream past the 40
    bytes it has read, so the next call reads other positions. *)
Lemma encrypt_advances_cursor (pw : string) (w : World) :
  cursor (Crypto.after_encrypt pw w) = (cursor w + 40)%nat.
Proof. unfold Crypto.after_encrypt. simpl. lia. Qed.

(** The envelope shows the salt and the nonce that were drawn: two envelopes
    are equal only if both agree. *)
Lemma envelope_of_shows_draws (data pw : string) (w1 w2 : World) :
  Crypto.envelope_of data pw w1 = Crypto.envelope_of data pw w2 →
  Crypto.salt_drawn w1 = Crypto.salt_drawn w2
  ∧ Crypto.nonce_drawn w1 = Crypto.nonce_drawn w2.
Proof.
  unfold Crypto.envelope_of. intros Heq.
  apply app_inj_1 in Heq as [Hsalt Hrest].
  - split; [done|]. apply app_inj_1 in Hrest as [Hnonce _]; [done|].
    unfold Crypto.nonce_drawn. by rewrite !length_map, !length_seq.
  - unfold Crypto.salt_drawn. by rewrite !length_map, !length_seq.
Qed.

End Freshness.

(** * Further properties of the code *)

(** ** Looking entries up *)

Section Lookup.

Implicit Types (v : Vault.t) (e entry : PasswordEntry) (l : list PasswordEntry).

(** [find_entry] stops at the first entry with the identifier. *)
Lemma find_entry_first id0 l k :
  Vault.find_entry id0 l = Some k →
  ∀ j e, (j < k)%nat → l !! j = Some e → id e ≠ id0.
Proof.
  revert k. induction l as [|x l IH]; intros k; simpl; [done|].
  destruct (N.eqb_spec (id x) id0) as [Heq|Hne].
  - intros [= <-] j e Hj. lia.
  - destruct (Vault.find_entry id0 l) as [k'|] eqn:Hfind; simpl; [|done].
    intros [= <-] j e Hj. destruct j as [|j]; simpl.
    + by intros [= <-].
    + apply (IH k' eq_refl). lia.
Qed.

Lemma find_entry_is_Some id0 l :
  id0 ∈ id <$> l → is_Some (Vault.find_entry id0 l).
Proof.
  intros Hin. destruct (Vault.find_entry id0 l) eqn:Hfind; [done|].
  by apply find_entry_None in Hfind.
Qed.

(** Where the first entry with the identifier of [e] sits when it is [e]. *)
Lemma find_entry_NoDup l i e :
  NoDup (id <$> l) → l !! i = Some e → Vault.find_entry (id e) l = Some i.
Proof.
  intros Hnd Hi.
  destruct (find_entry_is_Some (id e) l) as [k Hk].
  { apply list_elem_of_fmap. exists e. split; [done|].
    by eapply list_elem_of_lookup_2. }
  rewrite Hk. f_equal.
  apply find_entry_Some in Hk as (e' & Hk & Hid).
  apply (NoDup_lookup _ k i (id e) Hnd).
  - rewrite list_lookup_fmap, Hk. simpl. by rewrite Hid.
  - by rewrite list_lookup_fmap, Hi.
Qed.

(** X1. [getEntryForEdit] answers with the first entry that has the
    identifier: the entry at the returned position has it and none before
    does; it answers [nullptr] exactly when no entry has the identifier. *)
Theorem getEntryForEdit_first_match (id0 : N) (v : Vault.t) :
  match Vault.getEntryForEdit id0 v with
  | Some k =>
      (∃ e, Vault.m_entries v !! k = Some e ∧ id e = id0)
      ∧ (∀ j e, (j < k)%nat → Vault.m_entries v !! j = Some e → id e ≠ id0)
  | None => id0 ∉ Vault.ids v
  end.
Proof.
  unfold Vault.getEntryForEdit.
  destruct (Vault.find_entry id0 (Vault.m_entries v)) as [k|] eqn:Hfind.
  - split; [by apply find_entry_Some | by apply find_entry_first].
  - by apply find_entry_None.
Qed.

(** The first match survives an overwrite that keeps its identifier. *)
Lemma find_entry_insert id0 l k e :
  Vault.find_entry id0 l = Some k → id e = id0 →
  Vault.find_entry id0 (<[k := e]> l) = Some k.
Proof.
  revert k. induction l as [|x l IH]; intros k; simpl; [done|].
  destruct (N.eqb_spec (id x) id0) as [Heq|Hne].
  - intros [= <-] He. simpl. by rewrite He, N.eqb_refl.
  - destruct (Vault.find_entry id0 l) as [k'|] eqn:Hfind; simpl; [|done].
    intros [= <-] He. simpl.
    destruct (N.eqb_spec (id x) id0) as [|_]; [done|].
    by rewrite (IH k' eq_refl He).
Qed.

Lemma find_entry_app_fresh id0 l e :
  Vault.find_entry id0 l = None → id e = id0 →
  Vault.find_entry id0 (l ++ [e]) = Some (length l).
Proof.
  intros Hnone He. induction l as [|x l IH]; simpl in *.
  - by rewrite He, N.eqb_refl.
  - destruct (N.eqb_spec (id x) id0) as [|_]; [done|].
    destruct (Vault.find_entry id0 l); [done|]. by rewrite IH.
Qed.

(** X2. After the "Save" button of the popup, looking the identifier up
    finds the entry that was saved, whether it replaced an entry or was
    appended; every entry with another identifier is where it was. *)
Theorem saved_entry_is_found (e : PasswordEntry) (v : Vault.t) :
  let v' := Ui.on_save_entry e v in
  (∃ k, Vault.getEntryForEdit (id e) v' = Some k
        ∧ Vault.m_entries v' !! k = Some e)
  ∧ (∀ j x, Vault.m_entries v !! j = Some x → id x ≠ id e →
            Vault.m_entries v' !! j = Some x)
  ∧ length (Vault.m_entries v')
    = (if bool_decide (id e ∈ Vault.ids v) then length (Vault.m_entries v)
       else S (length (Vault.m_entries v))).
Proof.
  cbv zeta. unfold Ui.on_save_entry, Vault.getEntryForEdit.
  destruct (Vault.find_entry (id e) (Vault.m_entries v)) as [k|] eqn:Hfind.
  - pose proof Hfind as (x & Hk & Hid)%find_entry_Some. simpl.
    split_and!.
    + exists k. split; [by apply find_entry_insert|].
      apply list_lookup_insert_eq. by eapply lookup_lt_Some.
    + intros j y Hj Hne. rewrite list_lookup_insert_ne; [done|].
      intros ->. rewrite Hk in Hj. by simplify_eq.
    + rewrite length_insert, bool_decide_eq_true_2; [done|].
      unfold Vault.ids. apply list_elem_of_fmap. exists x.
      split; [done|]. by eapply list_elem_of_lookup_2.
  - simpl. split_and!.
    + exists (length (Vault.m_entries v)).
      split; [by apply find_entry_app_fresh|].
      by rewrite lookup_app_r, Nat.sub_diag.
    + intros j y Hj _. by apply lookup_app_l_Some.
    + rewrite length_app, bool_decide_eq_false_2; [simpl; lia|].
      by apply find_entry_None.
Qed.

(** [find_entry] after filtering out another identifier finds the same
    entry. *)
Lemma find_entry_filter id0 id1 l :
  id0 ≠ id1 →
  (Vault.find_entry id1 (filter (λ e, id e ≠ id0) l) ≫=
     λ k, filter (λ e, id e ≠ id0) l !! k)
  = (Vault.find_entry id1 l ≫= λ k, l !! k).
Proof.
  intros Hne. induction l as [|x l IH]; [done|].
  destruct (decide (id x = id0)) as [Hx|Hx].
  - rewrite filter_cons_False by (by intros ?). rewrite IH. simpl.
    destruct (N.eqb_spec (id x) id1) as [Heq|_]; [congruence|].
    by destruct (Vault.find_entry id1 l).
  - rewrite filter_cons_True by done. simpl.
    destruct (N.eqb_spec (id x) id1) as [Heq|_]; [done|].
    simpl in IH.
    destruct (Vault.find_entry id1 (filter _ l)) as [k|],
             (Vault.find_entry id1 l) as [k'|]; simpl in *; done.
Qed.

(** X3. After [deleteEntry id0] a lookup of [id0] answers [nullptr], and a
    lookup of any other identifier finds the entry it found before. *)
Theorem deleted_entry_is_not_found (id0 : N) (v : Vault.t) :
  let v' := Vault.deleteEntry id0 v in
  Vault.getEntryForEdit id0 v' = None
  ∧ (∀ id1, id1 ≠ id0 →
       (Vault.getEntryForEdit id1 v' ≫= λ k, Vault.m_entries v' !! k)
       = (Vault.getEntryForEdit id1 v ≫= λ k, Vault.m_entries v !! k)).
Proof.
  cbv zeta. unfold Vault.getEntryForEdit. rewrite deleteEntry_filter. split.
  - destruct (Vault.find_entry id0 _) as [k|] eqn:Hfind; [|done].
    apply find_entry_Some in Hfind as (e & Hk & Hid).
    apply list_elem_of_lookup_2, list_elem_of_filter in Hk as [Hne _]. done.
  - intros id1 Hne. by apply find_entry_filter.
Qed.

(** X4. Deleting is idempotent and two deletions commute. *)
Theorem deleteEntry_commutes (id0 id1 : N) (v : Vault.t) :
  Vault.deleteEntry id0 (Vault.deleteEntry id0 v) = Vault.deleteEntry id0 v
  ∧ Vault.deleteEntry id0 (Vault.deleteEntry id1 v)
    = Vault.deleteEntry id1 (Vault.deleteEntry id0 v).
Proof.
  assert (Hext : ∀ a b : Vault.t, Vault.m_entries a = Vault.m_entries b → a = b).
  { intros [a] [b]; simpl; congruence. }
  split; apply Hext; rewrite !deleteEntry_filter.
  - rewrite list_filter_filter. apply list_filter_iff. tauto.
  - rewrite !list_filter_filter. apply list_filter_iff. tauto.
Qed.

End Lookup.

(** ** Erasing *)

Section Erase.

(** The loop of [remove_if] keeps the size of the vector and ends with
    [result] behind the elements it kept. *)
Lemma remove_if_loop_bounds {A} (pred : A -> bool) (todo kept gap : list A) :
  let '(moved, new_end) :=
    Vault.remove_if_loop pred (kept ++ gap ++ todo)
      (length kept) (length kept + length gap) (length todo) in
  length moved = length (kept ++ gap ++ todo)
  ∧ new_end = (length kept + length (filter (λ x, pred x = false) todo))%nat.
Proof.
  revert kept gap. induction todo as [|x todo IH]; intros kept gap; simpl.
  - split; [done|]. simpl. lia.
  - assert (Hx : (kept ++ gap ++ x :: todo) !! (length kept + length gap)%nat
                 = Some x).
    { rewrite lookup_app_r by lia.
      replace (length kept + length gap - length kept)%nat
        with (length gap) by lia.
      by rewrite list_lookup_middle. }
    rewrite Hx. destruct (pred x) eqn:Hp.
    + rewrite filter_cons_False by (rewrite Hp; discriminate).
      specialize (IH kept (gap ++ [x])).
      rewrite length_app in IH. simpl in IH.
      rewrite <- (assoc_L (++) gap [x] todo) in IH. simpl in IH.
      by rewrite Nat.add_1_r, <- plus_n_Sm in IH.
    + rewrite filter_cons_True by done.
      assert (Hins : ∀ y rest,
                 <[length kept := x]> (kept ++ y :: rest) = kept ++ x :: rest).
      { intros y rest. induction kept as [|k kept IHk]; simpl; [done|].
        by rewrite IHk. }
      destruct gap as [|g gap].
      * change (kept ++ [] ++ x :: todo) with (kept ++ x :: todo).
        rewrite Hins.
        specialize (IH (kept ++ [x]) []).
        rewrite length_app in IH. simpl in IH.
        rewrite <- (assoc_L (++) kept [x]) in IH. simpl in IH.
        rewrite Nat.add_0_r in *.
        rewrite Nat.add_1_r in IH.
        destruct (Vault.remove_if_loop _ _ _ _ _) as [moved new_end].
        simpl. rewrite !length_app in *. simpl in *. lia.
      * change (kept ++ (g :: gap) ++ x :: todo)
          with (kept ++ g :: (gap ++ x :: todo)).
        rewrite Hins.
        specialize (IH (kept ++ [x]) (gap ++ [x])).
        rewrite !length_app in IH. simpl in IH.
        rewrite <- !(assoc_L (++) kept [x]) in IH. simpl in IH.
        rewrite <- (assoc_L (++) gap [x] todo) in IH. simpl in IH.
        replace (length kept + 1 + (length gap + 1))%nat
          with (S (length kept + S (length gap))) in IH by lia.
        rewrite Nat.add_1_r in IH.
        destruct (Vault.remove_if_loop _ _ _ _ _) as [moved new_end].
        simpl. rewrite !length_app in *. simpl in *.
        rewrite !length_app in *. simpl in *. lia.
Qed.

(** X5. [remove_if] hands [erase] a valid range: the vector it leaves has the
    size it had, the new logical end is the number of elements that do not
    satisfy the predicate and so lies within the vector, and the elements
    before it are those elements in their order. *)
Theorem remove_if_returns_valid_range {A} (pred : A -> bool) (v : list A) :
  let moved := (Vault.remove_if pred v).1 in
  let new_end := (Vault.remove_if pred v).2 in
  length moved = length v
  ∧ new_end = length (filter (λ x, pred x = false) v)
  ∧ (new_end <= length v)%nat
  ∧ take new_end moved = filter (λ x, pred x = false) v.
Proof.
  cbv zeta.
  pose proof (remove_if_loop_bounds pred v [] []) as Hb.
  pose proof (erase_remove_if pred v) as Ht.
  unfold Vault.remove_if, Vault.erase_to_end in *. simpl in Hb.
  destruct (Vault.remove_if_loop pred v 0 0 (length v)) as [moved new_end].
  simpl in *. destruct Hb as [Hlen Hend]. split_and!; try done.
  rewrite Hend. apply length_filter.
Qed.

End Erase.

(** ** The details pane *)

Section Details.

Lemma filter_out_unique_id (l : list PasswordEntry) (i : nat) (e : PasswordEntry) :
  NoDup (id <$> l) → l !! i = Some e →
  filter (λ x, id x ≠ id e) l = delete i l.
Proof.
  revert i. induction l as [|x l IH]; intros i Hnd Hi; [done|].
  rewrite fmap_cons in Hnd. apply NoDup_cons in Hnd as [Hx Hnd].
  destruct i as [|i]; simpl in *.
  - simplify_eq. rewrite filter_cons_False by (by intros ?).
    clear IH. induction l as [|y l IH]; [done|].
    rewrite fmap_cons, not_elem_of_cons in Hx. destruct Hx as [Hne Hx].
    apply NoDup_cons in Hnd as [_ Hnd].
    rewrite filter_cons_True by done. f_equal. by apply IH.
  - rewrite filter_cons_True.
    + f_equal. by apply IH.
    + intros Heq. apply Hx. rewrite Heq.
      apply list_elem_of_fmap. exists e. split; [done|].
      by eapply list_elem_of_lookup_2.
Qed.

(** What [selected] computes for an [int] and a vector that exists. *)
Lemma selected_lookup (sel : Z) (v : Vault.t) :
  - 2 ^ 31 <= sel <= Ui.INT_MAX →
  size (Vault.m_entries v) <= vector_max_size →
  Panel.selected sel v
  = if bool_decide (0 <= sel < size (Vault.m_entries v))
    then Vault.m_entries v !! Z.to_nat sel else None.
Proof.
  intros Hint Hsize. unfold Panel.selected, Vault.getEntries, Ui.INT_MAX,
    vector_max_size, size_t_modulus in *.
  destruct (decide (0 <= sel)) as [Hpos|Hneg].
  - rewrite Z.mod_small by lia.
    rewrite (bool_decide_eq_true_2 (sel ≠ -1)) by lia. simpl.
    destruct (Z.ltb_spec sel (size (Vault.m_entries v))).
    + by rewrite bool_decide_eq_true_2 by lia.
    + by rewrite bool_decide_eq_false_2 by lia.
  - rewrite (bool_decide_eq_false_2 (0 <= sel < _)) by lia.
    replace (sel mod 2 ^ 64) with (sel + 2 ^ 64).
    + destruct (Z.ltb_spec (sel + 2 ^ 64) (size (Vault.m_entries v)));
        [lia|]. by rewrite andb_false_r.
    + rewrite <- (Z.mod_add sel 1 (2 ^ 64)) by lia.
      rewrite Z.mod_small; lia.
Qed.

(** X6. In a vault with pairwise distinct identifiers the "Delete" button
    removes the selected row and nothing else, keeps the order of the other
    rows and resets the selection; with no row selected, or a selection past
    the end, it changes nothing. *)
Theorem delete_button_removes_selected_row (selectedEntry : Z) (v : Vault.t) :
  NoDup (Vault.ids v) →
  - 2 ^ 31 <= selectedEntry <= Ui.INT_MAX →
  size (Vault.m_entries v) <= vector_max_size →
  Panel.on_delete_selected selectedEntry v
  = if bool_decide (0 <= selectedEntry < size (Vault.m_entries v))
    then (-1, Vault.mk (delete (Z.to_nat selectedEntry) (Vault.m_entries v)))
    else (selectedEntry, v).
Proof.
  intros Hnd Hint Hsize. unfold Panel.on_delete_selected.
  rewrite selected_lookup by done. case_bool_decide as Hsel; [|done].
  destruct (Vault.m_entries v !! Z.to_nat selectedEntry) as [e|] eqn:He.
  - f_equal. unfold Ui.on_delete.
    assert (Hext : ∀ a b : Vault.t,
               Vault.m_entries a = Vault.m_entries b → a = b).
    { intros [a] [b]; simpl; congruence. }
    apply Hext. rewrite deleteEntry_filter. simpl.
    by apply filter_out_unique_id.
  - apply lookup_ge_None in He. unfold size in Hsel. lia.
Qed.

End Details.

Lemma delete_button_removes_selected_row_witness :
  Panel.on_delete_selected 0 Toy.vault = (-1, Vault.mk [Toy.bank]).
Proof.
  rewrite (delete_button_removes_selected_row 0 Toy.vault).
  - reflexivity.
  - unfold Vault.ids. simpl. apply NoDup_cons. split.
    + rewrite list_elem_of_singleton. by vm_compute.
    + apply NoDup_singleton.
  - by vm_compute.
  - by vm_compute.
Defined.

(** ** C strings in fixed buffers *)

Section Buffers.

Lemma c_str_no_zero (buf : list ascii) : zero ∉ Panel.c_str buf.
Proof.
  induction buf as [|c buf IH]; simpl; [apply not_elem_of_nil|].
  case_bool_decide as Hc; [apply not_elem_of_nil|].
  rewrite not_elem_of_cons. split; [congruence | done].
Qed.

Lemma c_str_app_zero (l r : list ascii) :
  zero ∉ l → Panel.c_str (l ++ zero :: r) = l.
Proof.
  induction l as [|c l IH]; simpl; intros Hl; [done|].
  - rewrite not_elem_of_cons in Hl. destruct Hl as [Hc Hl].
    rewrite bool_decide_eq_false_2 by congruence. by rewrite IH.
Qed.

Lemma c_str_id (l : list ascii) : zero ∉ l → Panel.c_str l = l.
Proof.
  induction l as [|c l IH]; simpl; intros Hl; [done|].
  rewrite not_elem_of_cons in Hl. destruct Hl as [Hc Hl].
  rewrite bool_decide_eq_false_2 by congruence. by rewrite IH.
Qed.

Lemma take_no_zero (n : nat) (l : list ascii) : zero ∉ l → zero ∉ take n l.
Proof. intros Hl Hin. apply Hl. by eapply subseteq_take. Qed.

(** Reading a terminated buffer after [strncpy] gives at most [n]
    characters of the source. *)
Lemma c_str_strncpy (dest src : list ascii) (n : nat) :
  Panel.terminated n dest →
  Panel.c_str (Panel.strncpy dest src n) = take n (Panel.c_str src).
Proof.
  intros [Hlen Hlast]. unfold Panel.strncpy.
  set (copied := take n (Panel.c_str src)).
  assert (Hfree : zero ∉ copied) by apply take_no_zero, c_str_no_zero.
  assert (Htail : drop n dest = [zero]).
  { apply list_eq. intros [|i]; rewrite lookup_drop.
    - rewrite Nat.add_0_r. done.
    - simpl. apply lookup_ge_None. lia. }
  rewrite Htail.
  destruct (n - length copied)%nat; simpl; by rewrite c_str_app_zero.
Qed.

(** Writing the zero at [n] after [strncpy] is [strncpy] into a buffer that
    had it. *)
Lemma insert_strncpy (dest src : list ascii) (n : nat) :
  length dest = S n →
  <[n := zero]> (Panel.strncpy dest src n)
  = Panel.strncpy (<[n := zero]> dest) src n.
Proof.
  intros Hlen. unfold Panel.strncpy.
  set (copied := take n (Panel.c_str src)).
  assert (Hc : (length copied <= n)%nat).
  { unfold copied. rewrite length_take. lia. }
  rewrite (assoc_L (++)).
  replace n with (length (copied ++ repeat zero (n - length copied)) + 0)%nat
    at 1 by (rewrite length_app, repeat_length; lia).
  rewrite insert_app_r, <- (assoc_L (++)). f_equal.
  rewrite drop_insert_ge by lia. by rewrite Nat.sub_diag.
Qed.

Lemma length_list_ascii (s : string) :
  length (list_ascii_of_string s) = String.length s.
Proof. induction s; simpl; congruence. Qed.

Lemma clipped_fits (n : nat) (s : string) : Panel.fits n s → Panel.clipped n s = s.
Proof.
  intros [Hzero Hlen]. unfold Panel.clipped.
  rewrite c_str_id by done. rewrite take_ge.
  - apply string_of_list_ascii_of_string.
  - by rewrite length_list_ascii.
Qed.

Lemma text_of_strncpy (dest : list ascii) (s : string) (n : nat) :
  Panel.terminated n dest →
  Panel.text_of (Panel.strncpy dest (list_ascii_of_string s) n)
  = Panel.clipped n s.
Proof.
  intros Hdest. unfold Panel.text_of, Panel.clipped.
  by rewrite c_str_strncpy.
Qed.

(** X7. When the popup opens on an entry and is saved with no key pressed,
    the entry that reaches the vault has the identifier it had and each text
    cut at the first zero character and at the capacity of its buffer: 127
    characters for title, user name and password, 255 for the URL and 511
    for the notes. *)
Theorem popup_clips_fields (e : PasswordEntry) (b : Panel.Buffers) :
  Panel.well_formed b →
  Panel.entry_of_buffers e (Panel.on_popup_open e b)
  = mkEntry (id e) (Panel.clipped 127 (title e)) (Panel.clipped 127 (username e))
            (Panel.clipped 127 (password e)) (Panel.clipped 255 (url e))
            (Panel.clipped 511 (notes e)).
Proof.
  intros (Ht & Hu & Hp & Hl & Hn).
  unfold Panel.entry_of_buffers, Panel.on_popup_open. simpl.
  by rewrite !text_of_strncpy.
Qed.

(** X8. "Edit" followed by "Save" with no key pressed leaves the vault as it
    is, when identifiers are pairwise distinct and the texts of the selected
    entry fit the buffers. *)
Theorem edit_then_save_is_identity
    (selectedEntry : Z) (e : PasswordEntry) (v : Vault.t) (b : Panel.Buffers) :
  NoDup (Vault.ids v) →
  Panel.selected selectedEntry v = Some e →
  Panel.well_formed b →
  Panel.fits 127 (title e) → Panel.fits 127 (username e) →
  Panel.fits 127 (password e) → Panel.fits 255 (url e) →
  Panel.fits 511 (notes e) →
  ∃ b', Panel.on_edit_selected selectedEntry v b = Some (e, b')
        ∧ Panel.on_popup_save e b' v = v.
Proof.
  intros Hnd Hsel Hb Ht Hu Hp Hl Hn.
  exists (Panel.on_popup_open e b). split.
  - unfold Panel.on_edit_selected. by rewrite Hsel.
  - unfold Panel.on_popup_save.
    destruct Hb as (Hbt & Hbu & Hbp & Hbl & Hbn).
    unfold Panel.entry_of_buffers, Panel.on_popup_open. simpl.
    rewrite !text_of_strncpy, !clipped_fits by done.
    replace (mkEntry (id e) (title e) (username e) (password e) (url e) (notes e))
      with e by (by destruct e).
    unfold Panel.selected in Hsel.
    destruct (_ && _); [|done]. unfold Vault.getEntries in Hsel.
    unfold Ui.on_save_entry, Vault.getEntryForEdit.
    rewrite (find_entry_NoDup _ _ _ Hnd Hsel).
    unfold Vault.assign_at. rewrite list_insert_id by done. by destruct v.
Qed.

End Buffers.

Lemma popup_clips_fields_witness :
  Panel.entry_of_buffers Toy.bank (Panel.on_popup_open Toy.bank Panel.blank)
  = Toy.bank.
Proof.
  rewrite (popup_clips_fields Toy.bank Panel.blank).
  - reflexivity.
  - repeat split.
Defined.

Lemma edit_then_save_is_identity_witness :
  ∃ b', Panel.on_edit_selected 1 Toy.vault Panel.blank = Some (Toy.bank, b')
        ∧ Panel.on_popup_save Toy.bank b' Toy.vault = Toy.vault.
Proof.
  apply (edit_then_save_is_identity 1 Toy.bank Toy.vault Panel.blank).
  - unfold Vault.ids. simpl. apply NoDup_cons. split.
    + rewrite list_elem_of_singleton. by vm_compute.
    + apply NoDup_singleton.
  - reflexivity.
  - repeat split.
  - split; [|simpl; lia]. refine (bool_decide_unpack _ _). by vm_compute.
  - split; [|simpl; lia]. refine (bool_decide_unpack _ _). by vm_compute.
  - split; [|simpl; lia]. refine (bool_decide_unpack _ _). by vm_compute.
  - split; [|simpl; lia]. refine (bool_decide_unpack _ _). by vm_compute.
  - split; [|simpl; lia]. refine (bool_decide_unpack _ _). by vm_compute.
Defined.

(** ** The generator behind the popup *)

Section GenerateAndUse.

Context {S : Sodium} {HS : SodiumSpec S}.

(** The alphabet of any selection of classes has no zero character, no
    character twice, and fits a [uint32_t]. *)
Lemma char_set_of_facts (u l n s : bool) :
  let char_set := list_ascii_of_string (Ui.char_set_of u l n s) in
  (zero ∉ char_set) ∧ NoDup char_set
  ∧ length char_set
    = ((if u then 26 else 0) + (if l then 26 else 0)
       + (if n then 10 else 0) + (if s then 26 else 0))%nat.
Proof.
  cbv zeta. split_and!.
  - refine (bool_decide_unpack _ _). by destruct u, l, n, s; vm_compute.
  - refine (bool_decide_unpack _ _). by destruct u, l, n, s; vm_compute.
  - by destruct u, l, n, s.
Qed.

(** [GeneratePassword] with a class selected and a length that is one. *)
Lemma GeneratePassword_returns (length : Z) (u l n s : bool) (w : World) :
  0 <= length <= Ui.INT_MAX →
  u || l || n || s = true →
  let char_set := Ui.char_set_of u l n s in
  ∃ indices w',
    Ui.draw_indices (Z.to_nat length) (N.of_nat (String.length char_set)) w
    = (Returned indices, w')
    ∧ Ui.GeneratePassword length u l n s w
      = (Returned (Ui.pick char_set indices), w')
    ∧ Datatypes.length indices = Z.to_nat length
    ∧ Forall (λ i, (i < N.of_nat (String.length char_set))%N) indices.
Proof.
  intros Hlength Hsome char_set. unfold Ui.INT_MAX in Hlength.
  assert (Hset : char_set ≠ EmptyString
                 ∧ (0 < N.of_nat (String.length char_set) < 2 ^ 32)%N).
  { unfold char_set in *. destruct u, l, n, s; try done; by vm_compute. }
  destruct Hset as [Hne Hbound].
  destruct (generate_loop_draws (Z.to_nat length) char_set EmptyString w Hbound)
    as (indices & w' & Hdraw & Hloop & Hn & Hall).
  exists indices, w'. split_and!; try done.
  unfold Ui.GeneratePassword. fold char_set.
  rewrite bool_decide_eq_false_2 by done.
  destruct (string_max_size <? length mod size_t_modulus) eqn:Hmax.
  { apply Z.ltb_lt in Hmax. unfold string_max_size, size_t_modulus in Hmax.
    rewrite Z.mod_small in Hmax by lia. lia. }
  exact Hloop.
Qed.

Lemma pick_no_zero (char_set : string) (indices : list N) :
  zero ∉ list_ascii_of_string char_set →
  Forall (λ i, (i < N.of_nat (String.length char_set))%N) indices →
  zero ∉ map (Ui.char_at char_set) indices.
Proof.
  intros Hzero Hall Hin. apply list_elem_of_fmap in Hin as (i & Hi & Hin).
  rewrite Forall_forall in Hall. apply Hzero. rewrite Hi.
  by apply char_at_in, Hall.
Qed.

(** X9. "Generate & Use" leaves in the password field the first 127
    characters of what [GeneratePassword] returned: all of a password of up
    to 127 characters, and one character less than asked for at the slider's
    maximum of 128.  With no class selected the field receives the text
    "Invalid settings".  The other fields are not touched. *)
Theorem generate_and_use_clips_at_127
    (gen_length : Z) (u l n s : bool) (b : Panel.Buffers) (w : World) :
  0 <= gen_length <= Ui.INT_MAX →
  length (Panel.passBuf b) = 128%nat →
  let char_set := Ui.char_set_of u l n s in
  ∃ b' w',
    Panel.on_generate_and_use gen_length u l n s b w = (Returned b', w')
    ∧ Panel.titleBuf b' = Panel.titleBuf b ∧ Panel.userBuf b' = Panel.userBuf b
    ∧ Panel.urlBuf b' = Panel.urlBuf b ∧ Panel.notesBuf b' = Panel.notesBuf b
    ∧ length (Panel.passBuf b') = 128%nat
    ∧ (u || l || n || s = false →
       Panel.text_of (Panel.passBuf b') = "Invalid settings"%string)
    ∧ (u || l || n || s = true →
       ∃ indices,
         (Ui.draw_indices (Z.to_nat gen_length)
            (N.of_nat (String.length char_set)) w).1 = Returned indices
         ∧ Panel.text_of (Panel.passBuf b')
           = Ui.pick char_set (take 127 indices)
         ∧ String.length (Panel.text_of (Panel.passBuf b'))
           = Nat.min 127 (Z.to_nat gen_length)).
Proof.
  intros Hlength Hbuf char_set.
  assert (Htext : ∀ new_pass,
    Panel.text_of (<[127%nat := zero]>
      (Panel.strncpy (Panel.passBuf b) (list_ascii_of_string new_pass) 127))
    = Panel.clipped 127 new_pass).
  { intros new_pass. rewrite insert_strncpy by done.
    apply text_of_strncpy. split.
    - by rewrite length_insert.
    - apply list_lookup_insert_eq. lia. }
  assert (Hsize : ∀ new_pass,
    length (<[127%nat := zero]>
      (Panel.strncpy (Panel.passBuf b) (list_ascii_of_string new_pass) 127))
    = 128%nat).
  { intros new_pass. rewrite length_insert. unfold Panel.strncpy.
    rewrite !length_app, repeat_length, length_drop, length_take. lia. }
  unfold Panel.on_generate_and_use, bind.
  destruct (u || l || n || s) eqn:Hclasses.
  - destruct (GeneratePassword_returns gen_length u l n s w Hlength Hclasses)
      as (indices & w' & Hdraw & Hgen & Hn & Hall).
    fold char_set in Hdraw, Hgen, Hall. rewrite Hgen. unfold ret.
    eexists _, w'. split; [reflexivity|].
    cbn [Panel.titleBuf Panel.userBuf Panel.passBuf Panel.urlBuf Panel.notesBuf].
    split_and!; try done.
    intros _. exists indices. rewrite Hdraw. split; [done|].
    rewrite Htext. unfold Panel.clipped, Ui.pick.
    rewrite list_ascii_of_string_of_list_ascii.
    rewrite c_str_id.
    + rewrite <- fmap_take.
      change (string_of_list_ascii (Ui.char_at char_set <$> take 127 indices))
        with (Ui.pick char_set (take 127 indices)).
      split; [done|]. by rewrite length_pick, length_take, Hn.
    + apply pick_no_zero; [|done]. apply (char_set_of_facts u l n s).
  - assert (Hgen : Ui.GeneratePassword gen_length u l n s w
                   = (Returned "Invalid settings"%string, w)).
    { by destruct u, l, n, s. }
    rewrite Hgen. unfold ret. eexists _, w. split; [reflexivity|].
    cbn [Panel.titleBuf Panel.userBuf Panel.passBuf Panel.urlBuf Panel.notesBuf].
    split_and!; try done.
Qed.

End GenerateAndUse.

Lemma generate_and_use_clips_at_127_witness :
  ∃ b' w',
    @Panel.on_generate_and_use Toy.sodium 128 true true true true
      Panel.blank Toy.fed = (Returned b', w')
    ∧ String.length (Panel.text_of (Panel.passBuf b')) = 127%nat.
Proof.
  destruct (generate_and_use_clips_at_127 (HS := toy_sodium_spec)
              128 true true true true Panel.blank Toy.fed)
    as (b' & w' & Hrun & _ & _ & _ & _ & _ & _ & Hsome).
  - by vm_compute.
  - reflexivity.
  - destruct (Hsome eq_refl) as (indices & _ & _ & Hlen).
    exists b', w'. split; [exact Hrun | exact Hlen].
Defined.

(** X10. The alphabet [GeneratePassword] draws from holds every character of
    the selected classes once and no other: 26, 26, 10 and 26 characters per
    class, pairwise distinct, none of them the zero character. *)
Theorem char_set_has_each_character_once (u l n s : bool) :
  let char_set := list_ascii_of_string (Ui.char_set_of u l n s) in
  NoDup char_set
  ∧ (zero ∉ char_set)
  ∧ length char_set
    = ((if u then 26 else 0) + (if l then 26 else 0)
       + (if n then 10 else 0) + (if s then 26 else 0))%nat
  ∧ (∀ c, c ∈ char_set ↔
          (u = true ∧ c ∈ list_ascii_of_string Ui.UPPERCASE)
          ∨ (l = true ∧ c ∈ list_ascii_of_string Ui.LOWERCASE)
          ∨ (n = true ∧ c ∈ list_ascii_of_string Ui.NUMBERS)
          ∨ (s = true ∧ c ∈ list_ascii_of_string Ui.SYMBOLS)).
Proof.
  cbv zeta. destruct (char_set_of_facts u l n s) as (Hz & Hnd & Hlen).
  split_and!; try done.
  intros c.
  assert (Happ : ∀ a b, list_ascii_of_string (a +:+ b)
                        = list_ascii_of_string a ++ list_ascii_of_string b).
  { intros a b. induction a as [|x a IH]; [done|].
    change (x :: list_ascii_of_string (a +:+ b)
            = x :: list_ascii_of_string a ++ list_ascii_of_string b).
    by rewrite IH. }
  unfold Ui.char_set_of.
  destruct u, l, n, s; rewrite ?Happ, ?elem_of_app;
    change (list_ascii_of_string EmptyString) with (@nil ascii);
    rewrite ?elem_of_nil; intuition congruence.
Qed.

(** ** What [decrypt] does to the world *)

Section Effects.

Context {S : Sodium} {J : JsonLib}.

(** X11. [decrypt] derives a key exactly when the envelope has at least 40
    bytes, once, from the password and the first 16 bytes; whatever it
    answers, it changes nothing else: it draws no random bytes and touches no
    file. *)
Theorem decrypt_changes_only_the_kdf_log
    (envelope : list byte) (pw : string) (w : World) :
  (Crypto.decrypt envelope pw w).2
  = if size envelope <? 40 then w
    else log_kdf pw (Crypto.salt_of envelope) w.
Proof.
  unfold Crypto.decrypt, bind, crypto_pwhash, new_vector, ret, throw.
  change (crypto_pwhash_SALTBYTES + crypto_secretbox_NONCEBYTES) with 40.
  destruct (size envelope <? 40); [done|].
  repeat (match goal with
          | |- context [if ?b then _ else _] => destruct b
          | |- context [match ?o with Some _ => _ | None => _ end] => destruct o
          end; try reflexivity).
Qed.

(** X12. For an envelope that exists as a vector, [decrypt] raises an
    exception exactly when the envelope has 40 to 55 bytes and the key
    derivation got its memory; in every other case it returns, with the
    plaintext or with [std::nullopt]. *)
Theorem decrypt_throws_only_without_tag
    (envelope : list byte) (pw : string) (w : World) :
  size envelope <= vector_max_size →
  (∃ e, (Crypto.decrypt envelope pw w).1 = Threw e)
  ↔ 40 <= size envelope < 56
    ∧ (crypto_pwhash_MEMLIMIT_INTERACTIVE <= free_memory w)%N.
Proof.
  intros Hmax.
  destruct (Z.lt_ge_cases (size envelope) 40) as [Hshort|Hlong].
  { rewrite decrypt_below_guard by done. simpl. split; [|lia].
    by intros [e He]. }
  destruct (Z.lt_ge_cases (size envelope) 56) as [Htagless|Hfull].
  - rewrite decrypt_tagless by lia. simpl.
    destruct (N.leb_spec crypto_pwhash_MEMLIMIT_INTERACTIVE (free_memory w)).
    + split; [done|]. intros _. by eexists.
    + split; [by intros [e He]|]. lia.
  - destruct (N.le_gt_cases crypto_pwhash_MEMLIMIT_INTERACTIVE (free_memory w))
      as [Hmem|Hmem].
    + rewrite decrypt_derived by done. simpl. split; [|lia].
      by destruct (crypto_secretbox_open_easy _ _ _); intros [e He].
    + rewrite decrypt_exhausted by (done || lia). simpl.
      split; [by intros [e He] | lia].
Qed.

End Effects.

Lemma decrypt_throws_only_without_tag_witness :
  (∃ e, (@Crypto.decrypt Toy.sodium (repeat x00 47) "pw" Toy.fed).1
        = Threw e)
  ∧ ¬ (∃ e, (@Crypto.decrypt Toy.sodium Toy.envelope "pw" Toy.fed).1
            = Threw e).
Proof.
  split.
  - apply (decrypt_throws_only_without_tag (S := Toy.sodium)); by vm_compute.
  - rewrite (decrypt_throws_only_without_tag (S := Toy.sodium));
      [|by vm_compute].
    intros [[_ Hlt] _]. by vm_compute in Hlt.
Defined.

(** ** A session: save, lock, unlock *)

Section Session.

Context {S : Sodium} {HS : SodiumSpec S} {J : JsonLib}.

(** [save] followed by [load] of the same path, through the helper lemmas of
    the envelope. *)
Lemma save_then_load (filepath pw text : string) (v v0 : Vault.t) (w : World) :
  Vault.serialize (Vault.m_entries v) = Some text →
  parse text = Some (entries_to_json (Vault.m_entries v)) →
  representable text →
  (crypto_pwhash_MEMLIMIT_INTERACTIVE <= free_memory w)%N →
  filepath ∉ unwritable w →
  ∃ w1 w2,
    Vault.save filepath pw v w = (Returned true, w1)
    ∧ Vault.load filepath pw v0 w1 = (Returned true, v, w2).
Proof.
  intros Hdump Hparse Hrep Hmem Hwritable.
  pose proof (encrypt_returns_sealed text pw w Hmem Hrep) as Henc.
  set (envelope := Crypto.envelope_of text pw w) in *.
  set (w0 := Crypto.after_encrypt pw w) in *.
  set (w1 := set_files (<[filepath := envelope]> (files w0)) w0).
  destruct (decrypt_envelope_of text pw w w1) as [Hne Hdec]; [done..|].
  fold envelope in Hne, Hdec.
  exists w1, (log_kdf pw (Crypto.salt_of envelope) w1). split.
  - unfold Vault.save. rewrite Hdump, Henc.
    by rewrite bool_decide_eq_false_2.
  - unfold Vault.load. simpl. rewrite lookup_insert_eq.
    rewrite bool_decide_eq_false_2 by done.
    assert (Hde : Vault.deserialize text = Some (Vault.m_entries v)).
    { unfold Vault.deserialize. rewrite Hparse.
      apply entries_from_json_to_json. }
    rewrite Hdec, Hde. by destruct v.
Qed.

(** The loop of "Lock Vault" over a buffer of 128 characters. *)
Lemma zeroed (done todo : nat) (rest : list ascii) :
  length rest = todo →
  foldl (λ buf i, <[i := zero]> buf) (repeat zero done ++ rest) (seq done todo)
  = repeat zero (done + todo).
Proof.
  revert done rest. induction todo as [|todo IH]; intros done rest Hlen.
  - destruct rest; [|done]. simpl. by rewrite app_nil_r, Nat.add_0_r.
  - destruct rest as [|c rest]; [done|]. simpl in Hlen.
    cbn [seq foldl].
    replace (<[done := zero]> (repeat zero done ++ c :: rest))
      with (repeat zero (Datatypes.S done) ++ rest).
    + rewrite IH by lia. f_equal. lia.
    + rewrite insert_app_r_alt by (rewrite repeat_length; lia).
      rewrite repeat_length, Nat.sub_diag.
      change (repeat zero (Datatypes.S done)) with (zero :: repeat zero done).
      by rewrite repeat_cons, <- (assoc_L (++)).
Qed.

(** X14. A session.  "Save Vault" with a password in the buffer reports
    success; "Lock Vault" then empties the vault and overwrites all 128
    characters of the password buffer with zeros; and "Unlock" with the same
    password typed again brings back exactly the entries that were saved, in
    their order, with the screen unlocked and no error shown. *)
Theorem save_lock_unlock_restores_the_vault
    (vaultFilepath text : string) (passwordBuffer : list ascii)
    (ui : Ui.Login) (v : Vault.t) (w : World) :
  Vault.serialize (Vault.m_entries v) = Some text →
  parse text = Some (entries_to_json (Vault.m_entries v)) →
  representable text →
  (crypto_pwhash_MEMLIMIT_INTERACTIVE <= free_memory w)%N →
  vaultFilepath ∉ unwritable w →
  length passwordBuffer = 128%nat →
  ∃ w1 w2,
    Panel.on_save_vault vaultFilepath passwordBuffer ui v w
    = (Returned (Ui.mkLogin (Ui.currentState ui) "Vault saved successfully."),
       w1)
    ∧ Panel.on_lock v passwordBuffer
      = (Ui.mkLogin Ui.Locked EmptyString, Vault.mk [], repeat zero 128)
    ∧ Ui.on_unlock vaultFilepath (Panel.text_of passwordBuffer)
        (Ui.mkLogin Ui.Locked EmptyString) (Vault.mk []) w1
      = (Returned (Ui.mkLogin Ui.Unlocked EmptyString), v, w2).
Proof.
  intros Hdump Hparse Hrep Hmem Hwritable Hbuf.
  destruct (save_then_load vaultFilepath (Panel.text_of passwordBuffer) text
              v (Vault.mk []) w) as (w1 & w2 & Hsave & Hload); [done..|].
  exists w1, w2. split_and!.
  - unfold Panel.on_save_vault. by rewrite Hsave.
  - unfold Panel.on_lock, Vault.clear. f_equal.
    pose proof (zeroed 0 128 passwordBuffer Hbuf) as Hz. exact Hz.
  - unfold Ui.on_unlock. by rewrite Hload.
Qed.

End Session.

Lemma save_lock_unlock_restores_the_vault_witness :
  ∃ w1 w2,
    @Panel.on_save_vault Toy.sodium Toy.json_lib "my_vault.db"
      (list_ascii_of_string "hunter2" ++ repeat zero 121)
      (Ui.mkLogin Ui.Unlocked EmptyString) Toy.vault Toy.fed
    = (Returned (Ui.mkLogin Ui.Unlocked "Vault saved successfully."), w1)
    ∧ @Ui.on_unlock Toy.sodium Toy.json_lib "my_vault.db" "hunter2"
        (Ui.mkLogin Ui.Locked EmptyString) (Vault.mk []) w1
      = (Returned (Ui.mkLogin Ui.Unlocked EmptyString), Toy.vault, w2).
Proof.
  destruct (save_lock_unlock_restores_the_vault (HS := toy_sodium_spec)
              (J := Toy.json_lib) "my_vault.db" Toy.document
              (list_ascii_of_string "hunter2" ++ repeat zero 121)
              (Ui.mkLogin Ui.Unlocked EmptyString) Toy.vault Toy.fed)
    as (w1 & w2 & Hsave & _ & Hunlock).
  - by vm_compute.
  - by vm_compute.
  - by vm_compute.
  - by vm_compute.
  - set_solver.
  - reflexivity.
  - exists w1, w2. split; [exact Hsave | exact Hunlock].
Defined.

(** ** The entry list *)

Section EntryList.

Variable tolower : ascii -> ascii.

Lemma entry_rows_from (filter : list ascii) (entries : list PasswordEntry)
    (first : nat) :
  Forall (λ row, entries !! (row.1 - first)%nat = Some row.2
                 ∧ (first <= row.1)%nat)
    (Panel.entry_rows tolower filter entries first)
  ∧ StronglySorted lt (Panel.entry_rows tolower filter entries first).*1.
Proof.
  revert first. induction entries as [|e entries IH]; intros first; simpl.
  - split; constructor.
  - destruct (IH (Datatypes.S first)) as [Hrows Hsorted].
    assert (Hrest : Forall (λ row, (e :: entries) !! (row.1 - first)%nat
                                   = Some row.2 ∧ (first <= row.1)%nat)
                      (Panel.entry_rows tolower filter entries
                         (Datatypes.S first))).
    { eapply Forall_impl; [exact Hrows|]. intros [n x] [Hn Hle]. simpl in *.
      split; [|lia].
      replace (n - first)%nat with (Datatypes.S (n - Datatypes.S first)) by lia.
      done. }
    destruct (_ || _); simpl.
    + split.
      * constructor; [|done]. simpl. by rewrite Nat.sub_diag.
      * constructor; [done|]. rewrite Forall_fmap.
        eapply Forall_impl; [exact Hrows|]. intros [n x] [_ Hle]. simpl in *.
        lia.
    + done.
Qed.

Lemma prefix_append (a b : string) :
  String.prefix a b = true ↔ ∃ post, b = a +:+ post.
Proof.
  revert b. induction a as [|x a IH]; intros b.
  - split; [|by destruct b]. intros _. exists b. reflexivity.
  - destruct b as [|y b]; cbn [String.prefix].
    + split; [done | by intros [post Hpost]].
    + destruct (Ascii.ascii_dec x y) as [->|Hne].
      * rewrite IH. split; intros [post Hpost]; exists post.
        -- change (String y b = String y (a +:+ post)). by rewrite Hpost.
        -- change (String y b = String y (a +:+ post)) in Hpost.
           by injection Hpost.
      * split; [done|]. intros [post Hpost].
        change (String y b = String x (a +:+ post)) in Hpost. congruence.
Qed.

(** [contains] is the substring test. *)
Lemma contains_substring (needle haystack : string) :
  Panel.contains needle haystack = true
  ↔ ∃ pre post, haystack = pre +:+ needle +:+ post.
Proof.
  induction haystack as [|c hay IH].
  - cbn [Panel.contains]. rewrite orb_false_r, prefix_append. split.
    + intros [post Hpost]. by exists EmptyString, post.
    + intros ([|x pre] & post & Hpost); [by exists post|done].
  - cbn [Panel.contains]. rewrite orb_true_iff, prefix_append, IH. split.
    + intros [[post Hpost]|(pre & post & Hpost)].
      * by exists EmptyString, post.
      * exists (String c pre), post.
        change (String c hay = String c (pre +:+ needle +:+ post)).
        by rewrite Hpost.
    + intros ([|x pre] & post & Hpost).
      * left. by exists post.
      * right. exists pre, post.
        change (String c hay = String x (pre +:+ needle +:+ post)) in Hpost.
        by injection Hpost.
Qed.

Lemma elem_of_entry_rows (filter : list ascii) (entries : list PasswordEntry)
    (first n : nat) (e : PasswordEntry) :
  (n, e) ∈ Panel.entry_rows tolower filter entries first
  ↔ (first <= n)%nat ∧ entries !! (n - first)%nat = Some e
    ∧ (head filter = Some zero
       ∨ Panel.contains (Panel.lowered tolower (Panel.text_of filter))
           (Panel.lowered tolower (title e)) = true).
Proof.
  revert first. induction entries as [|x entries IH]; intros first.
  - simpl. rewrite elem_of_nil. split; [done|]. by intros (_ & Hn & _).
  - cbn [Panel.entry_rows]. rewrite elem_of_app, IH.
    destruct (decide (n = first)) as [->|Hne].
    + rewrite Nat.sub_diag. simpl.
      destruct (bool_decide (head filter = Some zero)
                || Panel.contains _ (Panel.lowered tolower (title x))) eqn:Hshow.
      * rewrite list_elem_of_singleton. split.
        -- intros [[= <-]|[Hlt _]]; [|lia].
           split; [lia|]. split; [done|].
           apply orb_true_iff in Hshow as [Hb|Hc]; [left|by right].
           by apply bool_decide_eq_true in Hb.
        -- intros (_ & [= <-] & _). by left.
      * rewrite elem_of_nil. split; [intros [[]|[Hlt _]]; lia|].
        intros (_ & [= <-] & Hor). apply orb_false_iff in Hshow as [Hb Hc].
        apply bool_decide_eq_false in Hb. destruct Hor; congruence.
    + split.
      * intros [Hin|(Hle & Hn & Hshow)].
        -- destruct (_ || _); [|by apply elem_of_nil in Hin].
           apply list_elem_of_singleton in Hin. congruence.
        -- split; [lia|]. split; [|done].
           replace (n - first)%nat with (Datatypes.S (n - Datatypes.S first))
             by lia. done.
      * intros (Hle & Hn & Hshow). right. split; [lia|]. split; [|done].
        replace (n - first)%nat with (Datatypes.S (n - Datatypes.S first))
          in Hn by lia. done.
Qed.

(** X15. Every row of the entry list carries the position of its entry in
    the vault, so that a click on it selects that entry, and the rows follow
    the order of the vault.  An entry has a row exactly when the filter is
    empty or its title, put through [tolower], contains the filter put
    through [tolower]; with an empty filter there is a row for every
    entry. *)
Theorem entry_rows_point_at_their_entries
    (filter : list ascii) (v : Vault.t) :
  let rows := Panel.entry_rows tolower filter (Vault.getEntries v) 0 in
  (∀ n e, (n, e) ∈ rows ↔
          Vault.getEntries v !! n = Some e
          ∧ (head filter = Some zero
             ∨ ∃ pre post,
                 Panel.lowered tolower (title e)
                 = pre +:+ Panel.lowered tolower (Panel.text_of filter)
                       +:+ post))
  ∧ StronglySorted lt rows.*1
  ∧ (head filter = Some zero →
     rows = imap (λ n e, (n, e)) (Vault.getEntries v)).
Proof.
  cbv zeta. destruct (entry_rows_from filter (Vault.getEntries v) 0)
    as [Hrows Hsorted]. split_and!.
  - intros n e. rewrite elem_of_entry_rows, contains_substring, Nat.sub_0_r.
    split; [tauto|]. intros [Hn Hshow]. split; [lia|done].
  - done.
  - intros Hempty.
    assert (Hfrom : ∀ entries first,
      Panel.entry_rows tolower filter entries first
      = imap (λ n e, ((first + n)%nat, e)) entries).
    { induction entries as [|e entries IH]; intros first; [done|].
      simpl. rewrite bool_decide_eq_true_2 by done. simpl.
      rewrite Nat.add_0_r. f_equal.
      rewrite IH. apply imap_ext. intros i x _. simpl. f_equal. lia. }
    by rewrite Hfrom.
Qed.

End EntryList.

(** ** Records as JSON *)

Section Records.

(** X16. The conversions of a record and of the vector of records are
    inverse to each other on what the program writes: reading back the JSON
    value of a list of entries gives that list, so two lists with the same
    JSON value are the same list. *)
Theorem entries_json_round_trip (R R' : list PasswordEntry) :
  entries_from_json (entries_to_json R) = Some R
  ∧ (entries_to_json R = entries_to_json R' → R = R').
Proof.
  split; [apply entries_from_json_to_json|].
  intros Heq. pose proof (entries_from_json_to_json R) as HR.
  rewrite Heq, entries_from_json_to_json in HR. congruence.
Qed.

(** In a member list with one member per key, [lookup_member] finds a
    member wherever it stands. *)
Lemma lookup_member_unique (key : string) (x : json)
    (ms : list (string * json)) :
  NoDup ms.*1 → (key, x) ∈ ms → lookup_member key ms = Some x.
Proof.
  induction ms as [|[k y] ms IH]; intros Hnd Hin.
  - by apply elem_of_nil in Hin.
  - rewrite fmap_cons in Hnd. apply NoDup_cons in Hnd as [Hk Hnd]. simpl in *.
    apply elem_of_cons in Hin as [[= <- <-]|Hin].
    + by rewrite String.eqb_refl.
    + destruct (String.eqb_spec k key) as [->|_]; [|by apply IH].
      exfalso. apply Hk. apply list_elem_of_fmap. by exists (key, x).
Qed.

(** X18. [from_json] reads a record by its keys alone.  From any object with
    one member per key (as every [nlohmann::json] object has) that holds the
    six members [to_json] writes for an entry, it reads that entry, in
    whatever order the members stand and whatever further members the object
    holds. *)
Theorem from_json_reads_by_key
    (p : PasswordEntry) (written members : list (string * json)) :
  to_json p = JObject written →
  NoDup members.*1 →
  written ⊆ members →
  from_json (JObject members) = Some p.
Proof.
  intros [= <-] Hnd Hsub. unfold from_json, at_.
  assert (Hkey : ∀ key x,
            (key, x) ∈ [("id"%string, JUnsigned (id p));
                        ("title"%string, JString (title p));
                        ("username"%string, JString (username p));
                        ("password"%string, JString (password p));
                        ("url"%string, JString (url p));
                        ("notes"%string, JString (notes p))] →
            lookup_member key members = Some x).
  { intros key x Hin. apply lookup_member_unique; [done|]. by apply Hsub. }
  rewrite (Hkey "id"%string (JUnsigned (id p))),
    (Hkey "title"%string (JString (title p))),
    (Hkey "username"%string (JString (username p))),
    (Hkey "password"%string (JString (password p))),
    (Hkey "url"%string (JString (url p))),
    (Hkey "notes"%string (JString (notes p)));
    try (repeat first [apply list_elem_of_here | apply list_elem_of_further]).
  by destruct p.
Qed.

End Records.

(** The members in the order a [std::map] keeps them, with one more. *)
Lemma from_json_reads_by_key_witness :
  from_json
    (JObject [("created"%string, JUnsigned 7);
              ("id"%string, JUnsigned (id Toy.bank));
              ("notes"%string, JString (notes Toy.bank));
              ("password"%string, JString (password Toy.bank));
              ("title"%string, JString (title Toy.bank));
              ("url"%string, JString (url Toy.bank));
              ("username"%string, JString (username Toy.bank))])
  = Some Toy.bank.
Proof.
  apply (from_json_reads_by_key Toy.bank
           [("id"%string, JUnsigned (id Toy.bank));
            ("title"%string, JString (title Toy.bank));
            ("username"%string, JString (username Toy.bank));
            ("password"%string, JString (password Toy.bank));
            ("url"%string, JString (url Toy.bank));
            ("notes"%string, JString (notes Toy.bank))]).
  - reflexivity.
  - refine (bool_decide_unpack _ _). by vm_compute.
  - intros kv Hkv.
    repeat (apply elem_of_cons in Hkv as [->|Hkv];
            [repeat first [apply list_elem_of_here
                          | apply list_elem_of_further]|]).
    by apply elem_of_nil in Hkv.
Defined.

(** ** The login screen *)

Section Login.

Context {S : Sodium} {J : JsonLib}.

(** X20. With a vault file on disk, "Unlock" takes a locked screen to the
    unlocked state only when [decrypt] returned a plaintext for the password
    typed and that plaintext deserialized; the vault then holds exactly these
    records and no error is shown.  In every other case with a file present
    the screen stays locked. *)
Theorem unlock_of_existing_file_needs_plaintext
    (vaultFilepath pw : string) (envelope : list byte) (ui login' : Ui.Login)
    (v v' : Vault.t) (w w' : World) :
  files w !! vaultFilepath = Some envelope →
  Ui.currentState ui = Ui.Locked →
  Ui.on_unlock vaultFilepath pw ui v w = (Returned login', v', w') →
  Ui.currentState login' = Ui.Unlocked →
  ∃ text R,
    (Crypto.decrypt envelope pw w).1 = Returned (Some text)
    ∧ Vault.deserialize text = Some R
    ∧ v' = Vault.mk R
    ∧ Ui.loginError login' = EmptyString.
Proof.
  intros Hfile Hlocked Hrun Hunlocked. revert Hrun.
  unfold Ui.on_unlock, Vault.load. rewrite Hfile.
  case_bool_decide as Hempty.
  { rewrite Hfile. intros [= <- _ _]. simpl in *. congruence. }
  pose proof (decrypt_files envelope pw w) as Hfiles.
  destruct (Crypto.decrypt envelope pw w) as [[[text|]|e] w1]; simpl in *.
  - destruct (Vault.deserialize text) as [R|] eqn:Hde.
    + intros [= <- <- _]. by exists text, R.
    + rewrite Hfiles, Hfile. intros [= <- _ _]. simpl in *. congruence.
  - rewrite Hfiles, Hfile. intros [= <- _ _]. simpl in *. congruence.
  - done.
Qed.

(** X21. A vault file of 40 to 55 bytes makes "Unlock" end in
    [std::length_error] when the key derivation gets its memory: the
    exception of [decrypt] passes through [load], which catches JSON
    exceptions only, and through the handler.  The vault is as it was and one
    key derivation has been logged. *)
Theorem unlock_of_tagless_file_throws
    (vaultFilepath pw : string) (envelope : list byte) (ui : Ui.Login)
    (v : Vault.t) (w : World) :
  files w !! vaultFilepath = Some envelope →
  40 <= size envelope < 56 →
  (crypto_pwhash_MEMLIMIT_INTERACTIVE <= free_memory w)%N →
  Vault.load vaultFilepath pw v w
  = (Threw length_error, v, log_kdf pw (Crypto.salt_of envelope) w)
  ∧ Ui.on_unlock vaultFilepath pw ui v w
    = (Threw length_error, v, log_kdf pw (Crypto.salt_of envelope) w).
Proof.
  intros Hfile Hlen Hmem.
  assert (Hload : Vault.load vaultFilepath pw v w
                  = (Threw length_error, v,
                     log_kdf pw (Crypto.salt_of envelope) w)).
  { unfold Vault.load. rewrite Hfile.
    rewrite bool_decide_eq_false_2.
    - rewrite decrypt_tagless by done.
      apply N.leb_le in Hmem. by rewrite Hmem.
    - intros ->. unfold size in Hlen. simpl in Hlen. lia. }
  split; [done|]. unfold Ui.on_unlock. by rewrite Hload.
Qed.

End Login.

Lemma unlock_of_existing_file_needs_plaintext_witness :
  ∃ text,
    (@Crypto.decrypt Toy.sodium
       (default [] (files Toy.saved !! "my_vault.db"%string))
       "correct-password" Toy.saved).1 = Returned (Some text)
    ∧ @Vault.deserialize Toy.json_lib text
      = Some (Vault.m_entries Toy.vault).
Proof.
  destruct (unlock_of_existing_file_needs_plaintext
              (S := Toy.sodium) (J := Toy.json_lib)
              "my_vault.db" "correct-password"
              (default [] (files Toy.saved !! "my_vault.db"%string))
              (Ui.mkLogin Ui.Locked EmptyString)
              (Ui.mkLogin Ui.Unlocked EmptyString)
              Vault.empty Toy.vault Toy.saved
              (@Ui.on_unlock Toy.sodium Toy.json_lib "my_vault.db"
                 "correct-password" (Ui.mkLogin Ui.Locked EmptyString)
                 Vault.empty Toy.saved).2)
    as (text & R & Hdec & Hde & HR & _).
  - by vm_compute.
  - reflexivity.
  - by vm_compute.
  - reflexivity.
  - exists text. split; [exact Hdec|]. rewrite Hde. by injection HR as <-.
Defined.

Lemma unlock_of_tagless_file_throws_witness :
  (@Ui.on_unlock Toy.sodium Toy.json_lib "short.db" "pw"
     (Ui.mkLogin Ui.Locked EmptyString) Toy.vault
     (Toy.world Toy.plenty {[ "short.db"%string := repeat x00 40 ]})).1
  = (Threw length_error, Toy.vault).
Proof.
  destruct (unlock_of_tagless_file_throws (S := Toy.sodium) (J := Toy.json_lib)
              "short.db" "pw" (repeat x00 40)
              (Ui.mkLogin Ui.Locked EmptyString) Toy.vault
              (Toy.world Toy.plenty {[ "short.db"%string := repeat x00 40 ]}))
    as [_ Hunlock].
  - by vm_compute.
  - by vm_compute.
  - by vm_compute.
  - by rewrite Hunlock.
Defined.

(** ** Random bytes *)

Section Stream.

Context {S : Sodium}.

(** What [encrypt] has done when it returns. *)
Lemma encrypt_returned (data pw : string) (w w1 : World)
    (envelope : list byte) :
  Crypto.encrypt data pw w = (Returned envelope, w1) →
  w1 = Crypto.after_encrypt pw w
  ∧ ∃ box, envelope = Crypto.salt_drawn w ++ Crypto.nonce_drawn w ++ box.
Proof.
  unfold Crypto.encrypt, bind.
  change (randombytes_buf crypto_pwhash_SALTBYTES w)
    with (Returned (Crypto.salt_drawn w), set_cursor (cursor w + 16) w).
  cbv beta iota. unfold crypto_pwhash.
  destruct (_ <=? _)%N; [|done]. cbv beta iota.
  rewrite take_salt_drawn.
  change (randombytes_buf crypto_secretbox_NONCEBYTES ?w0)
    with (Returned (map (entropy w) (seq (cursor w + 16) 24)),
          Crypto.after_encrypt pw w).
  cbv beta iota. unfold new_vector, ret, throw.
  destruct (vector_max_size <? _); [done|].
  intros Heq. split.
  - apply (f_equal snd) in Heq. by cbn [snd] in Heq.
  - apply (f_equal fst) in Heq. cbn [fst] in Heq.
    eexists. injection Heq as Heq. symmetry. exact Heq.
Qed.

Lemma drawn_forty (w : World) :
  Crypto.salt_drawn w ++ Crypto.nonce_drawn w
  = map (entropy w) (seq (cursor w) 40).
Proof.
  unfold Crypto.salt_drawn, Crypto.nonce_drawn.
  rewrite <- map_app. f_equal.
  change 40%nat with (16 + 24)%nat. by rewrite seq_app.
Qed.

(** X22. An envelope that [encrypt] returns begins with the next 40 bytes of
    the random stream, salt first, and the call moves the stream on by these
    40 bytes; so the following call, whatever it encrypts, takes its salt and
    nonce from the 40 positions after them and no position of the stream is
    used for two envelopes. *)
Theorem encrypt_takes_the_next_forty_bytes
    (data pw data2 pw2 : string) (w w1 w2 : World) (e1 e2 : list byte) :
  Crypto.encrypt data pw w = (Returned e1, w1) →
  Crypto.encrypt data2 pw2 w1 = (Returned e2, w2) →
  take 40 e1 = map (entropy w) (seq (cursor w) 40)
  ∧ take 40 e2 = map (entropy w) (seq (cursor w + 40) 40)
  ∧ cursor w1 = (cursor w + 40)%nat
  ∧ cursor w2 = (cursor w + 80)%nat.
Proof.
  intros (-> & box1 & ->)%encrypt_returned (-> & box2 & ->)%encrypt_returned.
  rewrite !(assoc_L (++)), !drawn_forty.
  rewrite !take_app_length' by (by rewrite length_map, length_seq).
  unfold Crypto.after_encrypt. simpl.
  replace (cursor w + 16 + 24)%nat with (cursor w + 40)%nat by lia.
  split_and!; try done. lia.
Qed.

(** X23. Asked for a negative number of characters with a class selected,
    [GeneratePassword] raises [std::length_error] from [reserve] and draws
    nothing; the check for an empty alphabet comes first, so with no class
    selected it returns "Invalid settings" for every length. *)
Theorem GeneratePassword_negative_length
    (length : Z) (u l n s : bool) (w : World) :
  - 2 ^ 31 <= length < 0 →
  Ui.GeneratePassword length u l n s w
  = if u || l || n || s then (Threw length_error, w)
    else (Returned "Invalid settings"%string, w).
Proof.
  intros Hneg. unfold Ui.GeneratePassword.
  destruct (bool_decide (Ui.char_set_of u l n s = EmptyString)) eqn:Hset.
  - by destruct u, l, n, s.
  - replace (u || l || n || s) with true by (by destruct u, l, n, s).
    unfold string_max_size, size_t_modulus.
    rewrite <- (Z.mod_add length 1 (2 ^ 64)) by lia.
    rewrite Z.mod_small by lia.
    destruct (Z.ltb_spec (2 ^ 62 - 1) (length + 1 * 2 ^ 64)); [done|lia].
Qed.

End Stream.

Lemma encrypt_takes_the_next_forty_bytes_witness :
  take 40 Toy.envelope = map Toy.noise (seq 0 40).
Proof.
  destruct (encrypt_takes_the_next_forty_bytes (S := Toy.sodium)
              "hello" "correct-password" "again" "pw"
              Toy.fed
              (@Crypto.encrypt Toy.sodium "hello" "correct-password" Toy.fed).2
              (@Crypto.encrypt Toy.sodium "again" "pw"
                 (@Crypto.encrypt Toy.sodium "hello" "correct-password"
                    Toy.fed).2).2
              Toy.envelope
              (match @Crypto.encrypt Toy.sodium "again" "pw"
                       (@Crypto.encrypt Toy.sodium "hello" "correct-password"
                          Toy.fed).2 with
               | (Returned blob, _) => blob
               | (Threw _, _) => []
               end))
    as (Hfirst & _).
  - by vm_compute.
  - by vm_compute.
  - exact Hfirst.
Defined.

Lemma GeneratePassword_negative_length_witness :
  @Ui.GeneratePassword Toy.sodium (-1) true false false false Toy.fed
  = (Threw length_error, Toy.fed).
Proof.
  rewrite (GeneratePassword_negative_length (S := Toy.sodium) (-1)).
  - reflexivity.
  - by vm_compute.
Defined.
